(** * Sender.js: the chunked stop-and-wait transfer of sixty5o2

    A shallow embedding of [src/Sender.js], the host side of the serial
    loader: the payload is cut in groups of eight bytes, each group is
    padded, protected by a one byte checksum, rendered as base64 and
    written to the serial line; the peer answers every chunk with a line
    [k] or [f], which drives an index over the chunks.

    The embedding follows the source function by function and keeps its
    names.  What belongs to the platform rather than to the repository
    (Buffer, String.prototype.trim, Number.prototype.toString, parseInt,
    the base64 rendering of a Buffer) is modelled from the ECMAScript and
    Node.js documentation, each at the place where it is used. *)

From Stdlib Require Import ZArith NArith Arith List Lia Bool Ascii.
From Stdlib.Strings Require Import Byte.
From Stdlib Require String.
Import ListNotations.
Import String.StringSyntax.

Abbreviation string := String.string.
Abbreviation EmptyString := String.EmptyString.
Abbreviation String := String.String.
Delimit Scope string_scope with string.
Infix "+++" := String.append (right associativity, at level 60).

Local Open Scope Z_scope.

(* ================================================================== *)
(** ** Platform values *)

(** A Node.js [Buffer] is a sequence of octets. *)
Definition Buffer := list byte.

(** The number an octet stands for when a Buffer is indexed or iterated. *)
Definition byte_val (b : byte) : Z := Z.of_N (Byte.to_N b).

(** Storing a number into a Buffer cell keeps its low eight bits. *)
Definition byte_of_Z (z : Z) : byte :=
  match Byte.of_N (Z.to_N (z mod 256)) with
  | Some b => b
  | None => x00
  end.

(** Exceptions the modelled code can raise. *)
Inductive error : Type :=
| TypeError   (* a property read on [undefined] *)
| RangeError. (* [Buffer.alloc] with a negative size *)

(** A computation that may throw. *)
Inductive result (A : Type) : Type :=
| Ok (a : A)
| Throw (e : error).
Arguments Ok {A} a.
Arguments Throw {A} e.

Definition rbind {A B} (m : result A) (f : A -> result B) : result B :=
  match m with
  | Ok a => f a
  | Throw e => Throw e
  end.

Notation "x <- m ;; k" := (rbind m (fun x => k))
  (at level 61, m at next level, right associativity).

(** The numbers [checkSum] computes with: an integer (every value that
    occurs is far below 2^53, hence exact) or [NaN]. *)
Inductive number : Type :=
| Int (z : Z)
| NaN.

(** ECMAScript [ToInt32]: reduce modulo 2^32 into [-2^31, 2^31); [NaN]
    becomes 0. *)
Definition wrap32 (z : Z) : Z := (z + 2 ^ 31) mod 2 ^ 32 - 2 ^ 31.

Definition ToInt32 (n : number) : Z :=
  match n with
  | Int z => wrap32 z
  | NaN => 0
  end.

(** [a << k] on 32 bit integers. *)
Definition js_shl (a : number) (k : Z) : number :=
  Int (wrap32 (Z.shiftl (ToInt32 a) k)).

(** [a + b] on numbers. *)
Definition js_add (a b : number) : number :=
  match a, b with
  | Int x, Int y => Int (x + y)
  | _, _ => NaN
  end.

(** [Number.prototype.toString(2)] on a non-negative integer: its binary
    digits, most significant first, ["0"] for zero. *)
Fixpoint pos_toString2 (p : positive) : string :=
  match p with
  | xH => "1"
  | xO q => pos_toString2 q +++ "0"
  | xI q => pos_toString2 q +++ "1"
  end%string.

Definition toString2 (z : Z) : string :=
  match z with
  | Zpos p => pos_toString2 p
  | _ => "0"%string
  end.

(** [s[i]]: the character at index [i], or [undefined]. *)
Definition char_at (s : string) (i : Z) : option ascii :=
  if i <? 0 then None else String.get (Z.to_nat i) s.

(** [parseInt] of what [s[i]] gave: a decimal digit is its value, any other
    character, and [undefined], is [NaN]. *)
Definition parseInt (c : option ascii) : number :=
  match c with
  | Some ch =>
      let n := Z.of_nat (nat_of_ascii ch) in
      if (48 <=? n) && (n <=? 57) then Int (n - 48) else NaN
  | None => NaN
  end.

(** [Buffer.alloc(size, fill)]: [size] octets, all [fill]; a negative
    size is refused. *)
Definition Buffer_alloc (size : Z) (fill : byte) : result Buffer :=
  if size <? 0 then Throw RangeError
  else Ok (repeat fill (Z.to_nat size)).

(** [Buffer.concat(list, totalLength)]: the buffers one after the other,
    cut or zero-filled to [totalLength]. *)
Definition Buffer_concat (bufs : list Buffer) (totalLength : nat) : Buffer :=
  let all := concat bufs in
  firstn totalLength all ++ repeat x00 (totalLength - length all).

(** The fill value [[n]] of [Buffer.alloc(1, [n])]: the one-element array
    is coerced to the number it holds, and of a number that is not negative
    the low octet is stored; a negative number, like [NaN], is stored
    as 0. *)
Definition fill_of_array (n : number) : byte :=
  match n with
  | Int z => if z <? 0 then x00 else byte_of_Z (z mod 2 ^ 32)
  | NaN => x00
  end.

(* ================================================================== *)
(** ** The framer: [checkSum], [appendChecksum], [appendPadding] *)

(** One turn of the [forEach] in [checkSum]:
    [bin = element.toString(2); cs = (cs << 1) + parseInt(bin[bin.length - 1])]. *)
Definition checkSum_step (cs : number) (element : byte) : number :=
  let bin := toString2 (byte_val element) in
  js_add (js_shl cs 1)
         (parseInt (char_at bin (Z.of_nat (String.length bin) - 1))).

Definition checkSum (data : Buffer) : number :=
  fold_left checkSum_step data (Int 0).

Definition appendChecksum (buf : Buffer) : Buffer :=
  Buffer_concat [buf; repeat (fill_of_array (checkSum buf)) 1] 9.

(** [appendPadding] is handed [chunks[idx]], which is [undefined] ([None])
    when the index is outside the array; reading [buf.length] then throws. *)
Definition appendPadding (buf : option Buffer) : result Buffer :=
  match buf with
  | None => Throw TypeError
  | Some b =>
      if Nat.eqb (length b) 8 then Ok b
      else
        pad <- Buffer_alloc (8 - Z.of_nat (length b)) x00 ;;
        Ok (Buffer_concat [b; pad] 8)
  end.

(* ================================================================== *)
(** ** The encoder: [data.toString('base64')]

    Node renders a Buffer in base64 as RFC 4648 lays it down: every three
    octets form a 24 bit group that is read as four 6 bit digits; a last
    group of one or two octets gives two or three digits and is filled up
    with [=]. *)

Definition base64_alphabet : string :=
  "ABCDEFGHIJKLMNOPQRSTUVWXYZabcdefghijklmnopqrstuvwxyz0123456789+/"%string.

Definition base64_char (digit : Z) : ascii :=
  match char_at base64_alphabet digit with
  | Some c => c
  | None => "="%char
  end.

Definition group24 (b1 b2 b3 : byte) : Z :=
  byte_val b1 * 65536 + byte_val b2 * 256 + byte_val b3.

Fixpoint base64_encode (data : Buffer) : string :=
  match data with
  | [] => EmptyString
  | [b1] =>
      let n := group24 b1 x00 x00 in
      String (base64_char (n / 262144))
        (String (base64_char (n / 4096 mod 64)) "==")
  | [b1; b2] =>
      let n := group24 b1 b2 x00 in
      String (base64_char (n / 262144))
        (String (base64_char (n / 4096 mod 64))
           (String (base64_char (n / 64 mod 64)) "="))
  | b1 :: b2 :: b3 :: rest =>
      let n := group24 b1 b2 b3 in
      String (base64_char (n / 262144))
        (String (base64_char (n / 4096 mod 64))
           (String (base64_char (n / 64 mod 64))
              (String (base64_char (n mod 64)) (base64_encode rest))))
  end%string.

(** The standard decoder the peer runs, the other half of RFC 4648. *)
Fixpoint index_of (c : ascii) (s : string) (i : Z) : option Z :=
  match s with
  | EmptyString => None
  | String d rest => if Ascii.eqb c d then Some i else index_of c rest (i + 1)
  end.

Definition base64_digit (c : ascii) : option Z := index_of c base64_alphabet 0.

Definition digits24 (c1 c2 c3 c4 : ascii) : option Z :=
  match base64_digit c1, base64_digit c2, base64_digit c3, base64_digit c4 with
  | Some d1, Some d2, Some d3, Some d4 =>
      Some (d1 * 262144 + d2 * 4096 + d3 * 64 + d4)
  | _, _, _, _ => None
  end.

Fixpoint base64_decode (text : string) : option Buffer :=
  match text with
  | EmptyString => Some []
  | String c1 (String c2 (String c3 (String c4 rest))) =>
      match rest with
      | EmptyString =>
          if Ascii.eqb c4 "=" then
            if Ascii.eqb c3 "=" then
              option_map (fun n => [byte_of_Z (n / 65536)])
                         (digits24 c1 c2 "A" "A")
            else
              option_map (fun n => [byte_of_Z (n / 65536);
                                    byte_of_Z (n / 256 mod 256)])
                         (digits24 c1 c2 c3 "A")
          else
            option_map (fun n => [byte_of_Z (n / 65536);
                                  byte_of_Z (n / 256 mod 256);
                                  byte_of_Z (n mod 256)])
                       (digits24 c1 c2 c3 c4)
      | _ =>
          match digits24 c1 c2 c3 c4, base64_decode rest with
          | Some n, Some bytes =>
              Some (byte_of_Z (n / 65536) :: byte_of_Z (n / 256 mod 256)
                      :: byte_of_Z (n mod 256) :: bytes)
          | _, _ => None
          end
      end
  | _ => None
  end.

(** A byte that a serial terminal shows as one visible character. *)
Definition printable (c : ascii) : Prop :=
  (32 < nat_of_ascii c < 127)%nat.

(* ================================================================== *)
(** ** [inGroupsOf] *)

(** [ary.slice(start, stop)] for indices that are not negative. *)
Definition slice {A} (ary : list A) (start stop : nat) : list A :=
  firstn (stop - start) (skipn start ary).

(** The [for] loop of [inGroupsOf], [i] being the loop variable and [result]
    the array built so far.  The loop runs for ever when [size] is 0; the
    model counts the turns down from [fuel] and answers [None] when they do
    not suffice. *)
Fixpoint inGroupsOf_loop {A} (fuel : nat) (ary : list A) (size i : nat)
         (result : list (list A)) : option (list (list A)) :=
  if (i <? length ary)%nat then
    match fuel with
    | O => None
    | S fuel' =>
        let chunk := slice ary i (i + size) in
        inGroupsOf_loop fuel' ary size (i + size) (result ++ [chunk])
    end
  else Some result.

Definition inGroupsOf {A} (ary : list A) (size : nat) : option (list (list A)) :=
  inGroupsOf_loop (length ary) ary size 0 [].

(** [ary[i]]: the element at index [i], or [undefined]. *)
Definition array_get {A} (ary : list A) (i : Z) : option A :=
  if i <? 0 then None else nth_error ary (Z.to_nat i).

(* ================================================================== *)
(** ** The process: what it does to the outside, and how it ends *)

(** Text read from the serial line: a sequence of UTF-16 code units. *)
Definition jsstring := list N.

Definition lit (s : string) : jsstring :=
  map N_of_ascii (String.list_ascii_of_string s).
Arguments lit s%_string.

Definition jsstring_eqb (a b : jsstring) : bool :=
  if list_eq_dec N.eq_dec a b then true else false.

(** ECMAScript WhiteSpace and LineTerminator, the code units that
    [String.prototype.trim] strips. *)
Definition is_space (c : N) : bool :=
  ((c =? 9) || (c =? 10) || (c =? 11) || (c =? 12) || (c =? 13) || (c =? 32)
   || (c =? 160) || (c =? 5760) || ((8192 <=? c) && (c <=? 8202))
   || (c =? 8232) || (c =? 8233) || (c =? 8239) || (c =? 8287)
   || (c =? 12288) || (c =? 65279))%N.

Fixpoint trim_start (s : jsstring) : jsstring :=
  match s with
  | c :: rest => if is_space c then trim_start rest else s
  | [] => []
  end.

Definition trim (s : jsstring) : jsstring :=
  rev (trim_start (rev (trim_start s))).

(** The lines [console.log] prints. *)
Inductive log_line : Type :=
| SendingChunk0                    (* 'Sending chunk: 0' *)
| SendingChunk (idx : Z)           (* 'Sending chunk: ', idx *)
| RepeatingChunk (idx : Z)         (* 'Repeating chunk: ', idx *)
| NoChunkLeft                      (* 'No chunk left!' *)
| Transferred                      (* 'Data transferred successfully! Quitting.' *)
| Response (response : jsstring).  (* 'Response: ', response *)

(** What the process does to the outside. *)
Inductive action : Type :=
| Log (line : log_line)   (* console.log *)
| Write (char : ascii)    (* connection.write(char) *)
| Close                   (* connection.close() *)
| Exit (code : Z).        (* process.exit(code) *)

(** The state behind the closure [indexManager] returns. *)
Record index_state : Type := { idx : Z; max : Z }.

(** How a piece of the program ends: it returns a value, leaving the index
    in some state; it throws; or it ends the process.  Each time with the
    actions done until then. *)
Inductive outcome (A : Type) : Type :=
| Done (a : A) (index : index_state) (out : list action)
| Crash (e : error) (out : list action)
| Exited (code : Z) (out : list action).
Arguments Done {A} a index out.
Arguments Crash {A} e out.
Arguments Exited {A} code out.

Definition M (A : Type) : Type := index_state -> outcome A.

Definition ret {A} (a : A) : M A := fun s => Done a s [].

(** [o], with the actions [out] done before it. *)
Definition after {A} (out : list action) (o : outcome A) : outcome A :=
  match o with
  | Done a s out' => Done a s (out ++ out')
  | Crash e out' => Crash e (out ++ out')
  | Exited code out' => Exited code (out ++ out')
  end.

Definition bind {A B} (m : M A) (f : A -> M B) : M B :=
  fun s =>
    match m s with
    | Done a s' out => after out (f a s')
    | Crash e out => Crash e out
    | Exited code out => Exited code out
    end.

Notation "x <-- m ;; k" := (bind m (fun x => k))
  (at level 61, m at next level, right associativity).
Notation "m ;;; k" := (bind m (fun _ => k))
  (at level 61, right associativity).

Definition tell (a : action) : M unit := fun s => Done tt s [a].

Fixpoint tell_all (l : list action) : M unit :=
  match l with
  | [] => ret tt
  | a :: rest => tell a ;;; tell_all rest
  end.

Definition lift {A} (r : result A) : M A :=
  fun s => match r with
           | Ok a => Done a s []
           | Throw e => Crash e []
           end.

Definition process_exit {A} (code : Z) : M A := fun _ => Exited code [Exit code].

(* ================================================================== *)
(** ** [sendByte], [sendChunk] *)

Definition sendByte (char : ascii) : M unit := tell (Write char).

(** The text [sendChunk] writes for [data]: padding, checksum, base64. *)
Definition wire (data : option Buffer) : result string :=
  data1 <- appendPadding data ;;
  Ok (base64_encode (appendChecksum data1)).

(** One call of [sendChunk] taken together with the whole burst that its
    callbacks write when nothing comes between them: the text, character by
    character.  The call as the source has it, which only assigns the
    global [base64] and starts the timers, is [Timers.sendChunk] further
    down; [session_keeps_pace] shows that a session made of such whole
    bursts and the session with its timers do the same whenever every
    acknowledgement is handled after the burst before it is out. *)
Definition sendChunk (data : option Buffer) : M unit :=
  base64 <-- lift (wire data) ;;
  tell_all (map Write (String.list_ascii_of_string base64)).

(* ================================================================== *)
(** ** [indexManager] *)

Definition indexManager (m : Z) : index_state := {| idx := 0; max := m - 1 |}.

(** [index.get()]; the result is a number, never [null]. *)
Definition get : M (option Z) := fun s => Done (Some (idx s)) s [].

(** [index.increase()]; [None] is [null]. *)
Definition increase : M (option Z) :=
  fun s =>
    if idx s >=? max s then Done None s []
    else Done (Some (idx s + 1)) {| idx := idx s + 1; max := max s |} [].

(* ================================================================== *)
(** ** The event handlers *)

Inductive event : Type :=
| START (chunk : option Buffer)
| CHUNK_SUCCESS
| CHUNK_FAILURE
| EOF.

Definition quit : M unit :=
  tell (Log Transferred) ;;;
  tell Close ;;;
  process_exit 0.

Definition sendFirstChunk (chunk : option Buffer) : M unit :=
  tell (Log SendingChunk0) ;;;
  sendChunk chunk.

(** [emitter.emit(EOF)] runs the one listener of [EOF], which is [quit]. *)
Definition sendNextChunk (chunks : list Buffer) : M unit :=
  i <-- increase ;;
  match i with
  | None => tell (Log NoChunkLeft) ;;; quit
  | Some i => tell (Log (SendingChunk i)) ;;; sendChunk (array_get chunks i)
  end.

Definition repeatChunk (chunks : list Buffer) : M unit :=
  i <-- get ;;
  match i with
  | None => quit
  | Some i => tell (Log (RepeatingChunk i)) ;;; sendChunk (array_get chunks i)
  end.

(** [myEmitter.emit(e)] with the listeners [establishEventHandlers]
    registers. *)
Definition emit (chunks : list Buffer) (e : event) : M unit :=
  match e with
  | START chunk => sendFirstChunk chunk
  | CHUNK_SUCCESS => sendNextChunk chunks
  | CHUNK_FAILURE => repeatChunk chunks
  | EOF => quit
  end.

(** The listener [establishParser] puts on the line parser. *)
Definition on_data (chunks : list Buffer) (data : jsstring) : M unit :=
  let response := trim data in
  if jsstring_eqb response (lit "k") then emit chunks CHUNK_SUCCESS
  else if jsstring_eqb response (lit "f") then emit chunks CHUNK_FAILURE
  else tell (Log (Response response)).

(** Events, and lines, handled one after the other. *)
Fixpoint emit_all (chunks : list Buffer) (events : list event) : M unit :=
  match events with
  | [] => ret tt
  | e :: rest => emit chunks e ;;; emit_all chunks rest
  end.

Fixpoint on_data_all (chunks : list Buffer) (lines : list jsstring) : M unit :=
  match lines with
  | [] => ret tt
  | l :: rest => on_data chunks l ;;; on_data_all chunks rest
  end.

(* ================================================================== *)
(** ** The main function

    From the file's content on: the chunks, the index, the handlers, then
    [START] with [chunks[0]] and whatever the peer sends back.  The lines
    the start-up prints are left out.  [None] would say that [inGroupsOf]
    does not return.  The sessions here are made of whole bursts; those
    with the timers are [Timers.session]. *)

Definition main_with {R} (inFile : Buffer) (replies : list Buffer -> list R -> M unit)
           (input : list R) : option (outcome unit) :=
  match inGroupsOf inFile 8 with
  | None => None
  | Some chunks =>
      let index := indexManager (Z.of_nat (length chunks)) in
      Some ((emit chunks (START (array_get chunks 0)) ;;; replies chunks input) index)
  end.

(** A session in which the peer's lines were classified as [responses]. *)
Definition session (inFile : Buffer) (responses : list event) : option (outcome unit) :=
  main_with inFile emit_all responses.

(** A session in which the peer sent [lines]. *)
Definition session_lines (inFile : Buffer) (lines : list jsstring) : option (outcome unit) :=
  main_with inFile on_data_all lines.

(* ================================================================== *)
(** ** The checksum as the specification words it

    An accumulator that starts at 0 and, byte after byte, is shifted left by
    one and takes in the byte's least significant bit; the checksum is the
    accumulator's low byte.  Written over unbounded integers, as the words
    say, and compared below with [checkSum]. *)

Definition lsb (b : byte) : Z := Z.land (byte_val b) 1.

Definition spec_step (accumulator : Z) (b : byte) : Z :=
  Z.shiftl accumulator 1 + lsb b.

Definition spec_accumulator (chunk : Buffer) : Z :=
  fold_left spec_step chunk 0.

Definition spec_checksum (chunk : Buffer) : byte :=
  byte_of_Z (Z.land (spec_accumulator chunk) 255).

(** The chunk after padding, in closed form. *)
Definition padded (chunk : Buffer) : Buffer :=
  chunk ++ repeat x00 (8 - length chunk).


(** All chunks but the last hold [size] elements, and the last is not
    empty. *)
Fixpoint well_chunked {A} (size : nat) (cs : list (list A)) : Prop :=
  match cs with
  | [] => True
  | c :: rest =>
      match rest with
      | [] => (1 <= length c <= size)%nat
      | _ :: _ => length c = size
      end /\ well_chunked size rest
  end.

(** The least number of groups of [b] that cover [a]. *)
Definition ceil_div (a b : Z) : Z := (a + b - 1) / b.

(** The number of chunks the specification gives for a payload of [L]
    bytes: [ceil(L/8)], or 1 if [L = 0]. *)
Definition spec_count (L : Z) : Z := if L =? 0 then 1 else ceil_div L 8.

(** The claim on the number of chunks as the specification states it. *)
Definition spec_chunking (payload : Buffer) : Prop :=
  exists chunks,
    inGroupsOf payload 8 = Some chunks
    /\ Z.of_nat (length chunks) = spec_count (Z.of_nat (length payload)).

(* ================================================================== *)
(** ** Reading a run *)

(** The text on the wire for a chunk of at most eight bytes, in closed
    form. *)
Definition wire_text (chunk : Buffer) : string :=
  base64_encode (appendChecksum (padded chunk)).

(** One transmission: the line that announces it and the characters
    written. *)
Definition transmission (line : log_line) (chunk : Buffer) : list action :=
  Log line :: map Write (String.list_ascii_of_string (wire_text chunk)).

(** The line that announces the first transmission of chunk [i]. *)
Definition announce (i : nat) : log_line :=
  match i with
  | O => SendingChunk0
  | S _ => SendingChunk (Z.of_nat i)
  end.

(** The chunks [cs], numbered from [i] on, each transmitted once. *)
Fixpoint sends_from (i : nat) (cs : list Buffer) : list action :=
  match cs with
  | [] => []
  | c :: rest => transmission (announce i) c ++ sends_from (S i) rest
  end.

(** What [quit] does after the last chunk was acknowledged. *)
Definition closing : list action :=
  [Log NoChunkLeft; Log Transferred; Close; Exit 0].

(** The index a line announces, if it announces a transmission. *)
Definition sent_index (a : action) : option Z :=
  match a with
  | Log SendingChunk0 => Some 0
  | Log (SendingChunk i) => Some i
  | Log (RepeatingChunk i) => Some i
  | _ => None
  end.

(** The indices of the transmissions of a run, in order. *)
Definition indices_sent (out : list action) : list Z :=
  flat_map (fun a => match sent_index a with Some i => [i] | None => [] end) out.

(** The characters written in a run, in order. *)
Definition written (out : list action) : list ascii :=
  flat_map (fun a => match a with Write c => [c] | _ => [] end) out.

(** The events the parser emits. *)
Definition ack (e : event) : Prop := e = CHUNK_SUCCESS \/ e = CHUNK_FAILURE.


(** The range the specification gives the index: [0, count-1]. *)
Definition spec_index_range (count : Z) (s : index_state) : Prop :=
  0 <= idx s <= count - 1.

(** The chunk at the current index is the one transmitted last, under the
    index the line before it announces. *)
Definition in_flight (chunks : list Buffer) (s : index_state)
           (out : list action) : Prop :=
  max s = Z.of_nat (length chunks) - 1
  /\ 0 <= idx s <= max s
  /\ exists pre line c,
       out = pre ++ transmission line c
       /\ array_get chunks (idx s) = Some c
       /\ sent_index (Log line) = Some (idx s).

(** A stretch of white space. *)
Definition blank (s : jsstring) : Prop := Forall (fun c => is_space c = true) s.

(** A character of the base64 alphabet. *)
Definition base64_letter (c : ascii) : Prop :=
  In c (String.list_ascii_of_string base64_alphabet).

(* ================================================================== *)
(** ** More ways to read a run *)

(** The parities of the bytes of a buffer, which is all [checkSum] looks
    at. *)
Definition parities (data : Buffer) : list Z := map lsb data.

(** The framed block of a chunk of at most eight bytes. *)
Definition framed (chunk : Buffer) : Buffer := appendChecksum (padded chunk).

(** [m], [n] times in a row. *)
Fixpoint times {A} (n : nat) (m : M A) : M unit :=
  match n with
  | O => ret tt
  | S k => m ;;; times k m
  end.

Definition is_success (e : event) : bool :=
  match e with
  | CHUNK_SUCCESS => true
  | _ => false
  end.

(** The number of Success events among [rs]. *)
Definition successes (rs : list event) : Z :=
  Z.of_nat (length (filter is_success rs)).

(** The actions of an outcome. *)
Definition trace {A} (o : outcome A) : list action :=
  match o with
  | Done _ _ out => out
  | Crash _ out => out
  | Exited _ out => out
  end.

(** An outcome, its actions passed through [f]. *)
Definition map_trace {A} (f : list action -> list action) (o : outcome A)
  : outcome A :=
  match o with
  | Done a s out => Done a s (f out)
  | Crash e out => Crash e (f out)
  | Exited code out => Exited code (f out)
  end.

Definition is_response (a : action) : bool :=
  match a with
  | Log (Response _) => true
  | _ => false
  end.

(** A run without the lines that only report what the peer said. *)
Definition protocol (out : list action) : list action :=
  filter (fun a => negb (is_response a)) out.

(** The events the listener on the parser emits for [lines], in order. *)
Definition events_of (lines : list jsstring) : list event :=
  flat_map (fun data =>
              let response := trim data in
              if jsstring_eqb response (lit "k") then [CHUNK_SUCCESS]
              else if jsstring_eqb response (lit "f") then [CHUNK_FAILURE]
              else []) lines.

(** Transmissions one after the other. *)
Definition transmissions (ts : list (log_line * Buffer)) : list action :=
  flat_map (fun t => transmission (fst t) (snd t)) ts.

(** Starting from index [i], every transmission of [ts] announces the index
    before it or the next one, and sends the chunk stored at the index it
    announces. *)
Fixpoint follows (chunks : list Buffer) (i : Z) (ts : list (log_line * Buffer))
  : Prop :=
  match ts with
  | [] => True
  | t :: rest =>
      exists j,
        sent_index (Log (fst t)) = Some j
        /\ (j = i \/ j = i + 1)
        /\ array_get chunks j = Some (snd t)
        /\ follows chunks j rest
  end.

(** A list of indices that starts where it starts and then, step by step,
    stays or goes up by one. *)
Fixpoint gentle (l : list Z) : Prop :=
  match l with
  | a :: rest =>
      match rest with
      | b :: _ => (b = a \/ b = a + 1) /\ gentle rest
      | [] => True
      end
  | [] => True
  end.

(** Neither [connection.close()] nor [process.exit]. *)
Definition keeps_open (a : action) : Prop :=
  match a with
  | Close | Exit _ => False
  | _ => True
  end.

(* ================================================================== *)
(** ** The timers of [sendChunk]

    [sendChunk] does not write.  It assigns the text to the global variable
    [base64] and hands a callback to [setTimeout]; when that callback runs
    it hands a second one to [setInterval], and every run of the second
    writes the character [base64[idx]] of the global as it is then, [idx]
    being the variable of the call of [sendChunk] that made the callback,
    until [idx] has reached [base64.length].  Lines of the peer are handled
    between the runs of the callbacks.

    This module follows the source at that grain: a machine holds the
    index, the global [base64] and the callbacks that wait, and a schedule
    says in which order lines arrive and callbacks run.  Any order is a
    schedule, also orders the event loop of Node never produces. *)

Module Timers.

(** A callback that waits in the event loop. *)
Inductive timer : Type :=
| Timeout             (* the one given to [setTimeout], not yet run *)
| Interval (idx : Z). (* the one given to [setInterval], with the [idx] of its call *)

Record machine : Type := {
  index : index_state;      (* the closure of [indexManager] *)
  base64 : option string;   (* the global [base64]; [None] until it is assigned *)
  timers : list timer       (* the callbacks that wait *)
}.

(** What can be thrown: the errors of the handlers, and the ReferenceError
    of reading a global that was never assigned. *)
Inductive thrown : Type :=
| Of (e : error)
| ReferenceError.

(** How a piece of the program ends, as [outcome] has it, with the machine
    in the place of the index. *)
Inductive ending (A : Type) : Type :=
| Live (a : A) (m : machine) (out : list action)
| Dead (e : thrown) (out : list action)
| Gone (code : Z) (out : list action).
Arguments Live {A} a m out.
Arguments Dead {A} e out.
Arguments Gone {A} code out.

Definition T (A : Type) : Type := machine -> ending A.

Definition ret {A} (a : A) : T A := fun m => Live a m [].

Definition after {A} (out : list action) (o : ending A) : ending A :=
  match o with
  | Live a m out' => Live a m (out ++ out')
  | Dead e out' => Dead e (out ++ out')
  | Gone code out' => Gone code (out ++ out')
  end.

Definition bind {A B} (c : T A) (f : A -> T B) : T B :=
  fun m =>
    match c m with
    | Live a m' out => after out (f a m')
    | Dead e out => Dead e out
    | Gone code out => Gone code out
    end.

Notation "x <~ c ;; k" := (bind c (fun x => k))
  (at level 61, c at next level, right associativity).
Notation "c ~> k" := (bind c (fun _ => k))
  (at level 61, right associativity).

Definition tell (a : action) : T unit := fun m => Live tt m [a].

Definition lift {A} (r : result A) : T A :=
  fun m => match r with
           | Ok a => Live a m []
           | Throw e => Dead (Of e) []
           end.

(** What works on the index alone, [index.get()], [index.increase()] and
    [quit], is taken as it is. *)
Definition on_index {A} (c : M A) : T A :=
  fun m =>
    match c (index m) with
    | Done a s out =>
        Live a {| index := s; base64 := base64 m; timers := timers m |} out
    | Crash e out => Dead (Of e) out
    | Exited code out => Gone code out
    end.

(** [base64 = ...], the assignment to the global. *)
Definition set_base64 (text : string) : T unit :=
  fun m => Live tt {| index := index m; base64 := Some text;
                      timers := timers m |} [].

Definition set_timers (ts : list timer) : T unit :=
  fun m => Live tt {| index := index m; base64 := base64 m; timers := ts |} [].

(** [setTimeout(callback, chunkTimeout)]: one more callback waits. *)
Definition setTimeout : T unit :=
  fun m => set_timers (timers m ++ [Timeout]) m.

(** [sendByte]; writing [undefined] to the connection throws. *)
Definition sendByte (char : option ascii) : T unit :=
  match char with
  | Some c => tell (Write c)
  | None => fun _ => Dead (Of TypeError) []
  end.

Definition sendChunk (data : option Buffer) : T unit :=
  text <~ lift (wire data) ;;
  set_base64 text ~>
  setTimeout.

(** Callback number [k] of those that wait runs.  The one of [setTimeout]
    calls [setInterval] and is gone; the one of [setInterval] compares its
    [idx] with the length of the global, and either clears itself or writes
    [base64[idx]] and adds one to [idx].  Where no callback has the number
    [k], nothing happens. *)
Definition run_timer (k : nat) : T unit :=
  fun m =>
    let before := firstn k (timers m) in
    let behind := skipn (S k) (timers m) in
    match nth_error (timers m) k with
    | None => Live tt m []
    | Some Timeout => set_timers (before ++ Interval 0 :: behind) m
    | Some (Interval idx) =>
        match base64 m with
        | None => Dead ReferenceError []
        | Some text =>
            if idx =? Z.of_nat (String.length text)
            then set_timers (before ++ behind) m
            else (sendByte (char_at text idx) ~>
                  set_timers (before ++ Interval (idx + 1) :: behind)) m
        end
    end.

Definition quit : T unit := on_index quit.

Definition sendFirstChunk (chunk : option Buffer) : T unit :=
  tell (Log SendingChunk0) ~>
  sendChunk chunk.

Definition sendNextChunk (chunks : list Buffer) : T unit :=
  i <~ on_index increase ;;
  match i with
  | None => tell (Log NoChunkLeft) ~> quit
  | Some i => tell (Log (SendingChunk i)) ~> sendChunk (array_get chunks i)
  end.

Definition repeatChunk (chunks : list Buffer) : T unit :=
  i <~ on_index get ;;
  match i with
  | None => quit
  | Some i => tell (Log (RepeatingChunk i)) ~> sendChunk (array_get chunks i)
  end.

Definition emit (chunks : list Buffer) (e : event) : T unit :=
  match e with
  | START chunk => sendFirstChunk chunk
  | CHUNK_SUCCESS => sendNextChunk chunks
  | CHUNK_FAILURE => repeatChunk chunks
  | EOF => quit
  end.

Definition on_data (chunks : list Buffer) (data : jsstring) : T unit :=
  let response := trim data in
  if jsstring_eqb response (lit "k") then emit chunks CHUNK_SUCCESS
  else if jsstring_eqb response (lit "f") then emit chunks CHUNK_FAILURE
  else tell (Log (Response response)).

(** One turn of the event loop: a line of the peer is handled, or a
    callback runs. *)
Inductive tick : Type :=
| Line (data : jsstring)
| Fire (k : nat).

Definition step (chunks : list Buffer) (t : tick) : T unit :=
  match t with
  | Line data => on_data chunks data
  | Fire k => run_timer k
  end.

Fixpoint run (chunks : list Buffer) (schedule : list tick) : T unit :=
  match schedule with
  | [] => ret tt
  | t :: rest => step chunks t ~> run chunks rest
  end.

(** The lines of a schedule, in order. *)
Definition lines_of (schedule : list tick) : list jsstring :=
  flat_map (fun t => match t with Line data => [data] | Fire _ => [] end)
           schedule.

(** The machine the main function starts with. *)
Definition boot (chunks : list Buffer) : machine :=
  {| index := indexManager (Z.of_nat (length chunks));
     base64 := None;
     timers := [] |}.

(** The main function, from the file's content on, under a schedule. *)
Definition session (inFile : Buffer) (schedule : list tick)
  : option (ending unit) :=
  match inGroupsOf inFile 8 with
  | None => None
  | Some chunks =>
      Some ((emit chunks (START (array_get chunks 0)) ~> run chunks schedule)
              (boot chunks))
  end.

Definition trace {A} (o : ending A) : list action :=
  match o with
  | Live _ _ out => out
  | Dead _ out => out
  | Gone _ out => out
  end.

(** *** Stop and wait

    The peer answers a chunk when it has it whole: an acknowledgement is
    handled when no callback waits any more. *)

Definition acknowledges (data : jsstring) : bool :=
  jsstring_eqb (trim data) (lit "k") || jsstring_eqb (trim data) (lit "f").

Definition idle (m : machine) : bool :=
  match timers m with
  | [] => true
  | _ :: _ => false
  end.

Definition in_time (t : tick) (m : machine) : bool :=
  match t with
  | Line data => if acknowledges data then idle m else true
  | Fire _ => true
  end.

Fixpoint patient (chunks : list Buffer) (schedule : list tick) (m : machine)
  : bool :=
  match schedule with
  | [] => true
  | t :: rest =>
      in_time t m
      && match step chunks t m with
         | Live _ m' _ => patient chunks rest m'
         | _ => true
         end
  end.

(** Every acknowledgement of the schedule is handled in time. *)
Definition stop_and_wait (inFile : Buffer) (schedule : list tick) : bool :=
  match inGroupsOf inFile 8 with
  | None => true
  | Some chunks =>
      match emit chunks (START (array_get chunks 0)) (boot chunks) with
      | Live _ m _ => patient chunks schedule m
      | _ => true
      end
  end.

(** The characters of the global that the callbacks still have to write,
    when at most one callback waits. *)
Definition pending (m : machine) : list ascii :=
  match timers m, base64 m with
  | [Timeout], Some text => String.list_ascii_of_string text
  | [Interval idx], Some text =>
      skipn (Z.to_nat idx) (String.list_ascii_of_string text)
  | _, _ => []
  end.

(** The callbacks of one burst: the one of [setTimeout], twelve that write,
    and the one that clears. *)
Definition burst : list tick := repeat (Fire 0) 14.

End Timers.

(** A run with its timers and a run with its bursts written in one go say
    the same: the same end, the same index, and the same actions once the
    ['Response: '] lines are taken out and the characters that still wait
    are counted in. *)
Definition agrees (timed : option (Timers.ending unit))
           (whole : option (outcome unit)) : Prop :=
  match timed, whole with
  | Some (Timers.Live _ m out), Some (Done _ s out') =>
      Timers.index m = s
      /\ protocol out ++ map Write (Timers.pending m) = protocol out'
  | Some (Timers.Dead e out), Some (Crash e' out') =>
      e = Timers.Of e' /\ protocol out = protocol out'
  | Some (Timers.Gone code out), Some (Exited code' out') =>
      code = code' /\ protocol out = protocol out'
  | None, None => True
  | _, _ => False
  end.

(** At most one callback waits, and it has a text to write from. *)
Definition tidy (m : Timers.machine) : Prop :=
  match Timers.timers m, Timers.base64 m with
  | [], _ => True
  | [Timers.Timeout], Some _ => True
  | [Timers.Interval idx], Some text => 0 <= idx <= Z.of_nat (String.length text)
  | _, _ => False
  end.

(** [agrees] for a stretch of a run, before which the characters [waiting]
    were still to be written. *)
Definition keeps_pace (waiting : list ascii) (timed : Timers.ending unit)
           (whole : outcome unit) : Prop :=
  match timed, whole with
  | Timers.Live _ m out, Done _ s out' =>
      Timers.index m = s /\ tidy m
      /\ map Write waiting ++ protocol out'
         = protocol out ++ map Write (Timers.pending m)
  | Timers.Dead e out, Crash e' out' =>
      e = Timers.Of e' /\ map Write waiting ++ protocol out' = protocol out
  | Timers.Gone code out, Exited code' out' =>
      code = code' /\ map Write waiting ++ protocol out' = protocol out
  | _, _ => False
  end.

(** The characters an ending leaves unwritten. *)
Definition unwritten {A} (o : Timers.ending A) : list ascii :=
  match o with
  | Timers.Live _ m _ => Timers.pending m
  | _ => []
  end.



(* ================================================================== *)
(** * Properties of the framer *)

Section Bytes.

Lemma byte_val_range (b : byte) : 0 <= byte_val b <= 255.
Proof.
  unfold byte_val. pose proof (Byte.to_N_bounded b). lia.
Qed.

Lemma byte_of_Z_val (b : byte) : byte_of_Z (byte_val b) = b.
Proof.
  unfold byte_of_Z. pose proof (byte_val_range b) as R.
  rewrite Z.mod_small by lia.
  unfold byte_val. rewrite N2Z.id, Byte.of_to_N. reflexivity.
Qed.

Lemma byte_val_of_Z (z : Z) : byte_val (byte_of_Z z) = z mod 256.
Proof.
  unfold byte_of_Z, byte_val.
  pose proof (Z.mod_pos_bound z 256 ltac:(lia)) as R.
  destruct (Byte.of_N (Z.to_N (z mod 256))) as [b|] eqn:E.
  - apply Byte.to_of_N in E. rewrite E. lia.
  - apply Byte.of_N_None_iff in E. lia.
Qed.

Lemma lsb_range (b : byte) : 0 <= lsb b <= 1.
Proof.
  unfold lsb.
  assert (E : Z.land (byte_val b) 1 = byte_val b mod 2)
    by (apply (Z.land_ones (byte_val b) 1); lia).
  rewrite E. pose proof (Z.mod_pos_bound (byte_val b) 2 ltac:(lia)). lia.
Qed.

End Bytes.

Lemma wrap32_small (z : Z) : - 2 ^ 31 <= z < 2 ^ 31 -> wrap32 z = z.
Proof.
  intros R. unfold wrap32. rewrite Z.mod_small; lia.
Qed.

(** The last character of [element.toString(2)] is a digit, and it is the
    least significant bit of [element]. *)
Lemma last_binary_digit (element : byte) :
  let bin := toString2 (byte_val element) in
  parseInt (char_at bin (Z.of_nat (String.length bin) - 1)) = Int (lsb element).
Proof.
  destruct element; vm_compute; reflexivity.
Qed.

Lemma checkSum_step_small (acc : Z) (element : byte) :
  0 <= acc < 2 ^ 30 ->
  checkSum_step (Int acc) element = Int (spec_step acc element).
Proof.
  intros R. unfold checkSum_step. cbv zeta. rewrite last_binary_digit.
  unfold js_shl, js_add, ToInt32, spec_step.
  rewrite (wrap32_small acc) by lia.
  rewrite Z.shiftl_mul_pow2 by lia. change (2 ^ 1) with 2.
  rewrite wrap32_small by lia. reflexivity.
Qed.

Lemma spec_step_bound (acc k : Z) (b : byte) :
  0 <= k -> 0 <= acc < 2 ^ k -> 0 <= spec_step acc b < 2 ^ (k + 1).
Proof.
  intros Hk R. unfold spec_step. pose proof (lsb_range b).
  rewrite Z.shiftl_mul_pow2 by lia. change (2 ^ 1) with 2.
  rewrite Z.pow_add_r by lia. change (2 ^ 1) with 2. lia.
Qed.

(** As long as the accumulator has room in 31 bits, the code's 32 bit shift
    and the unbounded one of the specification agree, and every byte adds one
    bit to the accumulator. *)
Lemma checkSum_fold (data : Buffer) :
  forall (acc k : Z),
    0 <= k -> 0 <= acc < 2 ^ k -> k + Z.of_nat (length data) <= 30 ->
    fold_left checkSum_step data (Int acc) = Int (fold_left spec_step data acc)
    /\ 0 <= fold_left spec_step data acc < 2 ^ (k + Z.of_nat (length data)).
Proof.
  induction data as [|b data IH]; intros acc k Hk R L; simpl in *.
  - rewrite Z.add_0_r. split; [reflexivity | exact R].
  - assert (2 ^ k <= 2 ^ 30) by (apply Z.pow_le_mono_r; lia).
    rewrite checkSum_step_small by lia.
    pose proof (spec_step_bound acc k b Hk R) as R'.
    destruct (IH (spec_step acc b) (k + 1)) as [E B]; try lia.
    split; [exact E|].
    replace (k + Z.pos (Pos.of_succ_nat (length data)))
      with (k + 1 + Z.of_nat (length data)) by lia.
    exact B.
Qed.

Lemma checkSum_short (data : Buffer) :
  (length data <= 8)%nat ->
  checkSum data = Int (spec_accumulator data)
  /\ 0 <= spec_accumulator data <= 255.
Proof.
  intros L. unfold checkSum, spec_accumulator.
  destruct (checkSum_fold data 0 0) as [E B]; try lia.
  split; [exact E|].
  assert (2 ^ (0 + Z.of_nat (length data)) <= 2 ^ 8)
    by (apply Z.pow_le_mono_r; lia).
  change (2 ^ 8) with 256 in *. lia.
Qed.

Lemma fill_of_array_small (z : Z) :
  0 <= z <= 255 -> fill_of_array (Int z) = byte_of_Z z.
Proof.
  intros R. unfold fill_of_array.
  destruct (Z.ltb_spec z 0); [lia|].
  change (2 ^ 32) with 4294967296. rewrite Z.mod_small by lia. reflexivity.
Qed.

Lemma Buffer_concat_exact (bufs : list Buffer) (n : nat) :
  length (concat bufs) = n -> Buffer_concat bufs n = concat bufs.
Proof.
  intros L. unfold Buffer_concat. cbv zeta. rewrite L, Nat.sub_diag.
  simpl. rewrite app_nil_r. subst n. apply firstn_all.
Qed.

Lemma appendPadding_short (chunk : Buffer) :
  (length chunk <= 8)%nat -> appendPadding (Some chunk) = Ok (padded chunk).
Proof.
  intros L. unfold appendPadding, padded.
  destruct (Nat.eqb (length chunk) 8) eqn:E.
  - apply Nat.eqb_eq in E. rewrite E, Nat.sub_diag. cbn [repeat].
    rewrite app_nil_r. reflexivity.
  - apply Nat.eqb_neq in E. unfold Buffer_alloc.
    destruct (8 - Z.of_nat (length chunk) <? 0) eqn:N; [apply Z.ltb_lt in N; lia|].
    unfold rbind. f_equal.
    replace (Z.to_nat (8 - Z.of_nat (length chunk))) with (8 - length chunk)%nat by lia.
    rewrite Buffer_concat_exact.
    + cbn [concat]. rewrite app_nil_r. reflexivity.
    + cbn [concat]. rewrite app_nil_r, length_app, repeat_length. lia.
Qed.

Lemma padded_length (chunk : Buffer) :
  (length chunk <= 8)%nat -> length (padded chunk) = 8%nat.
Proof.
  intros L. unfold padded. rewrite length_app, repeat_length. lia.
Qed.

Lemma padded_full (chunk : Buffer) : length chunk = 8%nat -> padded chunk = chunk.
Proof.
  intros L. unfold padded. rewrite L, Nat.sub_diag. apply app_nil_r.
Qed.

Lemma appendChecksum_full (buf : Buffer) :
  length buf = 8%nat -> appendChecksum buf = buf ++ [fill_of_array (checkSum buf)].
Proof.
  intros L. unfold appendChecksum. rewrite Buffer_concat_exact.
  - cbn [concat repeat]. rewrite app_nil_r. reflexivity.
  - cbn [concat repeat]. rewrite app_nil_r, length_app. cbn [length]. lia.
Qed.

(* ================================================================== *)
(** * Properties of [inGroupsOf] *)

Section Chunking.

Context {A : Type}.
Variable size : nat.
Hypothesis size_pos : (0 < size)%nat.

Lemma ceil_div_zero : ceil_div (Z.of_nat 0) (Z.of_nat size) = 0.
Proof.
  unfold ceil_div. apply Z.div_small. lia.
Qed.

Lemma ceil_div_partial (a : nat) :
  (0 < a <= size)%nat -> ceil_div (Z.of_nat a) (Z.of_nat size) = 1.
Proof.
  intros R. unfold ceil_div. symmetry.
  apply (Z.div_unique _ _ 1 (Z.of_nat a - 1)); lia.
Qed.

Lemma ceil_div_more (a : nat) :
  ceil_div (Z.of_nat (a + size)) (Z.of_nat size)
  = ceil_div (Z.of_nat a) (Z.of_nat size) + 1.
Proof.
  unfold ceil_div.
  replace (Z.of_nat (a + size) + Z.of_nat size - 1)
    with (Z.of_nat a + Z.of_nat size - 1 + 1 * Z.of_nat size) by lia.
  apply Z.div_add. lia.
Qed.

Lemma slice_group (ary : list A) (i : nat) :
  slice ary i (i + size) = firstn size (skipn i ary).
Proof.
  unfold slice. f_equal. lia.
Qed.

(** What the loop adds to [result] from position [i] on. *)
Lemma inGroupsOf_loop_spec (ary : list A) :
  forall (fuel i : nat) (result : list (list A)),
    (length ary - i <= fuel)%nat ->
    exists cs,
      inGroupsOf_loop fuel ary size i result = Some (result ++ cs)
      /\ concat cs = skipn i ary
      /\ well_chunked size cs
      /\ Z.of_nat (length cs)
         = ceil_div (Z.of_nat (length ary - i)) (Z.of_nat size).
Proof.
  induction fuel as [|fuel IH]; intros i result F.
  - exists []. cbn [inGroupsOf_loop].
    destruct (Nat.ltb_spec i (length ary)); [lia|].
    rewrite app_nil_r, skipn_all2 by lia.
    replace (length ary - i)%nat with 0%nat by lia.
    rewrite ceil_div_zero. repeat split.
  - cbn [inGroupsOf_loop].
    destruct (Nat.ltb_spec i (length ary)) as [Lt|Ge].
    + destruct (IH (i + size)%nat (result ++ [slice ary i (i + size)]))
        as (cs & E & C & W & N); [lia|].
      exists (slice ary i (i + size) :: cs).
      rewrite E, <- app_assoc. split; [reflexivity|].
      rewrite slice_group in *.
      assert (Len : length (firstn size (skipn i ary))
                    = Nat.min size (length ary - i))
        by (rewrite length_firstn, length_skipn; reflexivity).
      split; [|split].
      * cbn [concat]. rewrite C.
        rewrite <- (firstn_skipn size (skipn i ary)) at 2.
        rewrite skipn_skipn. do 2 f_equal. lia.
      * cbn [well_chunked]. split; [|exact W].
        destruct cs as [|c cs'].
        -- lia.
        -- destruct (Nat.le_gt_cases size (length ary - i)) as [Full|Part];
             [lia|].
           replace (length ary - (i + size))%nat with 0%nat in N by lia.
           rewrite ceil_div_zero in N. cbn [length] in N. lia.
      * cbn [length]. rewrite Nat2Z.inj_succ, N.
        destruct (Nat.le_gt_cases size (length ary - i)) as [Full|Part].
        -- replace (length ary - i)%nat
             with (length ary - (i + size) + size)%nat by lia.
           rewrite ceil_div_more. lia.
        -- replace (length ary - (i + size))%nat with 0%nat by lia.
           rewrite ceil_div_zero, ceil_div_partial; lia.
    + exists [].
      rewrite app_nil_r, skipn_all2 by lia.
      replace (length ary - i)%nat with 0%nat by lia.
      rewrite ceil_div_zero. repeat split.
Qed.

(** [inGroupsOf] returns, and what it returns. *)
Lemma inGroupsOf_spec (ary : list A) :
  exists cs,
    inGroupsOf ary size = Some cs
    /\ concat cs = ary
    /\ well_chunked size cs
    /\ Z.of_nat (length cs) = ceil_div (Z.of_nat (length ary)) (Z.of_nat size).
Proof.
  destruct (inGroupsOf_loop_spec ary (length ary) 0 []) as (cs & E & C & W & N);
    [lia|].
  exists cs. unfold inGroupsOf. rewrite E.
  rewrite Nat.sub_0_r in N. repeat split; assumption.
Qed.

Lemma well_chunked_bounds (cs : list (list A)) :
  well_chunked size cs -> Forall (fun c => (1 <= length c <= size)%nat) cs.
Proof.
  induction cs as [|c rest IH]; intros W; constructor.
  - destruct W as [H _]. destruct rest; lia.
  - apply IH, W.
Qed.

End Chunking.

Lemma padded_prefix (chunk : Buffer) : firstn (length chunk) (padded chunk) = chunk.
Proof.
  unfold padded. rewrite firstn_app, Nat.sub_diag, firstn_all. cbn [firstn].
  apply app_nil_r.
Qed.

(** Only the last chunk is padded, so the payload is the beginning of the
    padded chunks put one after the other. *)
Lemma padded_chunks_prefix (cs : list Buffer) :
  well_chunked 8 cs ->
  firstn (length (concat cs)) (concat (map padded cs)) = concat cs.
Proof.
  induction cs as [|c rest IH]; intros W; [reflexivity|].
  destruct W as [H W]. cbn [map concat]. rewrite length_app.
  destruct rest as [|c' rest'].
  - cbn [map concat length]. rewrite !app_nil_r, Nat.add_0_r.
    apply padded_prefix.
  - rewrite padded_full by exact H.
    rewrite firstn_app_2. f_equal. apply IH, W.
Qed.

Lemma wire_short (chunk : Buffer) :
  (length chunk <= 8)%nat -> wire (Some chunk) = Ok (wire_text chunk).
Proof.
  intros L. unfold wire. rewrite appendPadding_short by exact L. reflexivity.
Qed.

(* ================================================================== *)
(** * Running the handlers *)

Lemma tell_all_run (l : list action) (s : index_state) :
  tell_all l s = Done tt s l.
Proof.
  induction l as [|a l IH]; [reflexivity|].
  cbn [tell_all]. unfold bind. cbn [tell]. rewrite IH. reflexivity.
Qed.

Lemma bind_Done {A B} (m : M A) (f : A -> M B) s a s' out :
  m s = Done a s' out -> bind m f s = after out (f a s').
Proof.
  intros E. unfold bind. rewrite E. reflexivity.
Qed.

Lemma after_nil {A} (o : outcome A) : after [] o = o.
Proof. destruct o; reflexivity. Qed.

Lemma after_after {A} (o1 o2 : list action) (o : outcome A) :
  after o1 (after o2 o) = after (o1 ++ o2) o.
Proof. destruct o; cbn [after]; rewrite app_assoc; reflexivity. Qed.

Lemma bind_ext {A B} (m : M A) (f g : A -> M B) s :
  (forall a s', f a s' = g a s') -> bind m f s = bind m g s.
Proof.
  intros E. unfold bind. destruct (m s); [rewrite E|..]; reflexivity.
Qed.

Lemma bind_assoc {A B C} (m : M A) (f : A -> M B) (g : B -> M C) s :
  bind (bind m f) g s = bind m (fun a => bind (f a) g) s.
Proof.
  unfold bind. destruct (m s) as [a s1 o1| |]; try reflexivity.
  destruct (f a s1) as [b s2 o2| |]; cbn [after]; try reflexivity.
  rewrite after_after. reflexivity.
Qed.

Lemma bind_inv {A B} (m : M A) (f : A -> M B) s b s2 out :
  bind m f s = Done b s2 out ->
  exists a s1 o1 o2,
    m s = Done a s1 o1 /\ f a s1 = Done b s2 o2 /\ out = o1 ++ o2.
Proof.
  unfold bind. destruct (m s) as [a s1 o1| |]; try discriminate.
  destruct (f a s1) as [b' s2' o2| |] eqn:F; try discriminate.
  intros E. inversion E; subst. exists a, s1, o1, o2. auto.
Qed.

Lemma sendChunk_short (chunk : Buffer) (s : index_state) :
  (length chunk <= 8)%nat ->
  sendChunk (Some chunk) s
  = Done tt s (map Write (String.list_ascii_of_string (wire_text chunk))).
Proof.
  intros L. unfold sendChunk, bind, lift. rewrite wire_short by exact L.
  rewrite tell_all_run. reflexivity.
Qed.

Lemma sendFirstChunk_short (chunk : Buffer) (s : index_state) :
  (length chunk <= 8)%nat ->
  sendFirstChunk (Some chunk) s = Done tt s (transmission SendingChunk0 chunk).
Proof.
  intros L. unfold sendFirstChunk.
  rewrite (bind_Done _ _ s tt s [Log SendingChunk0]) by reflexivity.
  rewrite sendChunk_short by exact L. reflexivity.
Qed.

Lemma quit_run (s : index_state) :
  quit s = Exited 0 [Log Transferred; Close; Exit 0].
Proof. reflexivity. Qed.

Section Handlers.

Variable chunks : list Buffer.
Hypothesis chunks_short : Forall (fun c => (length c <= 8)%nat) chunks.

Lemma sendNextChunk_advance (s : index_state) (c : Buffer) :
  idx s < max s ->
  array_get chunks (idx s + 1) = Some c ->
  sendNextChunk chunks s
  = Done tt {| idx := idx s + 1; max := max s |}
         (transmission (SendingChunk (idx s + 1)) c).
Proof.
  intros Lt G. unfold sendNextChunk, bind, increase.
  destruct (Z.geb_spec (idx s) (max s)); [lia|].
  unfold tell. rewrite G. rewrite sendChunk_short; [reflexivity|].
  unfold array_get in G. destruct (idx s + 1 <? 0); [discriminate|].
  apply nth_error_In in G. rewrite Forall_forall in chunks_short.
  apply chunks_short, G.
Qed.

Lemma sendNextChunk_end (s : index_state) :
  max s <= idx s -> sendNextChunk chunks s = Exited 0 closing.
Proof.
  intros Ge. unfold sendNextChunk, bind, increase.
  destruct (Z.geb_spec (idx s) (max s)); [reflexivity|lia].
Qed.

Lemma repeatChunk_again (s : index_state) (c : Buffer) :
  array_get chunks (idx s) = Some c ->
  repeatChunk chunks s = Done tt s (transmission (RepeatingChunk (idx s)) c).
Proof.
  intros G. unfold repeatChunk, bind, get, tell. rewrite G.
  rewrite sendChunk_short; [reflexivity|].
  unfold array_get in G. destruct (idx s <? 0); [discriminate|].
  apply nth_error_In in G. rewrite Forall_forall in chunks_short.
  apply chunks_short, G.
Qed.

End Handlers.

Lemma skipn_nth_error {A} (l : list A) :
  forall (i : nat) (c : A),
    nth_error l i = Some c -> skipn i l = c :: skipn (S i) l.
Proof.
  induction l as [|a l IH]; intros [|i] c E; try discriminate.
  - inversion E. reflexivity.
  - cbn [nth_error] in E. rewrite (skipn_cons i a l), (IH i c E). reflexivity.
Qed.

Lemma array_get_nat {A} (ary : list A) (i : nat) :
  array_get ary (Z.of_nat i) = nth_error ary i.
Proof.
  unfold array_get. destruct (Z.ltb_spec (Z.of_nat i) 0); [lia|].
  rewrite Nat2Z.id. reflexivity.
Qed.

Lemma array_get_inside {A} (ary : list A) (i : Z) :
  0 <= i < Z.of_nat (length ary) -> exists a, array_get ary i = Some a.
Proof.
  intros R. rewrite <- (Z2Nat.id i) by lia. rewrite array_get_nat.
  destruct (nth_error ary (Z.to_nat i)) as [a|] eqn:E; [eauto|].
  apply nth_error_None in E. lia.
Qed.

Lemma emit_all_app (chunks : list Buffer) (a b : list event) (s : index_state) :
  emit_all chunks (a ++ b) s
  = bind (emit_all chunks a) (fun _ => emit_all chunks b) s.
Proof.
  revert s. induction a as [|e a IH]; intros s.
  - cbn [app emit_all]. unfold bind, ret. rewrite after_nil. reflexivity.
  - cbn [app emit_all]. rewrite bind_assoc. apply bind_ext.
    intros _ s'. apply IH.
Qed.

Section Runs.

Variable chunks : list Buffer.
Hypothesis chunks_short : Forall (fun c => (length c <= 8)%nat) chunks.

Local Abbreviation count := (Z.of_nat (length chunks)).

(** Success after success from index [i]: the chunks after [i], each once
    and in order, then the end. *)
Lemma successes_run :
  forall (k i : nat),
    (S (i + k) = length chunks)%nat ->
    emit_all chunks (repeat CHUNK_SUCCESS (S k))
             {| idx := Z.of_nat i; max := count - 1 |}
    = Exited 0 (sends_from (S i) (skipn (S i) chunks) ++ closing).
Proof.
  induction k as [|k IH]; intros i L.
  - cbn [repeat emit_all emit]. unfold bind.
    rewrite sendNextChunk_end by (cbn [idx max]; lia).
    rewrite skipn_all2 by lia. reflexivity.
  - destruct (nth_error chunks (S i)) as [c|] eqn:E;
      [|apply nth_error_None in E; lia].
    change (repeat CHUNK_SUCCESS (S (S k)))
      with (CHUNK_SUCCESS :: repeat CHUNK_SUCCESS (S k)).
    cbn [emit_all emit].
    erewrite bind_Done;
      [|apply (sendNextChunk_advance chunks chunks_short _ c);
        cbn [idx max]; [lia|]].
    + cbn [idx max]. replace (Z.of_nat i + 1) with (Z.of_nat (S i)) by lia.
      rewrite IH by lia. rewrite (skipn_nth_error chunks (S i) c E).
      cbn [after sends_from announce]. rewrite <- app_assoc. reflexivity.
    + replace (Z.of_nat i + 1) with (Z.of_nat (S i)) by lia.
      rewrite array_get_nat. exact E.
Qed.

(** One acknowledgement keeps the invariant, and the index does not go
    back. *)
Lemma emit_ack_in_flight (e : event) (s s' : index_state) (out o : list action) :
  ack e -> in_flight chunks s out ->
  emit chunks e s = Done tt s' o ->
  in_flight chunks s' (out ++ o) /\ idx s <= idx s'.
Proof.
  intros [-> | ->] (Hmax & R & pre & line & c & -> & G & I) E; cbn [emit] in E.
  - destruct (Z.lt_ge_cases (idx s) (max s)) as [Lt|Ge].
    + destruct (array_get_inside chunks (idx s + 1)) as [c' G']; [lia|].
      rewrite (sendNextChunk_advance chunks chunks_short s c' Lt G') in E.
      inversion E; subst. unfold in_flight. cbn [idx max]. split; [|lia].
      split; [exact Hmax|]. split; [lia|].
      exists (pre ++ transmission line c), (SendingChunk (idx s + 1)), c'.
      auto.
    + rewrite sendNextChunk_end in E by exact Ge. discriminate.
  - rewrite (repeatChunk_again chunks chunks_short s c G) in E.
    inversion E; subst. split; [|lia].
    split; [exact Hmax|]. split; [exact R|].
    exists (pre ++ transmission line c), (RepeatingChunk (idx s')), c. auto.
Qed.

Lemma emit_all_in_flight (rs : list event) :
  Forall ack rs ->
  forall (s s' : index_state) (out o : list action),
    in_flight chunks s out ->
    emit_all chunks rs s = Done tt s' o ->
    in_flight chunks s' (out ++ o) /\ idx s <= idx s'.
Proof.
  induction 1 as [|e rs A _ IH]; intros s s' out o Inv E.
  - inversion E; subst. rewrite app_nil_r. split; [exact Inv|lia].
  - cbn [emit_all] in E. apply bind_inv in E.
    destruct E as ([] & s1 & o1 & o2 & E1 & E2 & ->).
    destruct (emit_ack_in_flight e s s1 out o1 A Inv E1) as [Inv1 Le1].
    destruct (IH s1 s' (out ++ o1) o2 Inv1 E2) as [Inv2 Le2].
    rewrite app_assoc. split; [exact Inv2|lia].
Qed.

End Runs.

(* ================================================================== *)
(** * Sessions *)

Lemma after_Done_inv {A} (out : list action) (o : outcome A) a s out' :
  after out o = Done a s out' -> exists o', o = Done a s o' /\ out' = out ++ o'.
Proof.
  destruct o as [a0 s0 o0| |]; cbn [after]; intros E; inversion E; subst.
  exists o0. auto.
Qed.

Lemma list_cases {A} (l : list A) : l = [] \/ exists a rest, l = a :: rest.
Proof. destruct l; eauto. Qed.

Section Sessions.

Variable payload : Buffer.
Variable chunks : list Buffer.
Hypothesis chunked : inGroupsOf payload 8 = Some chunks.

Local Abbreviation count := (Z.of_nat (length chunks)).

Lemma chunks_of_payload :
  concat chunks = payload
  /\ well_chunked 8 chunks
  /\ count = ceil_div (Z.of_nat (length payload)) 8.
Proof.
  destruct (inGroupsOf_spec (A := byte) 8 ltac:(lia) payload)
    as (cs & E & C & W & N).
  rewrite chunked in E. inversion E; subst cs. auto.
Qed.

Lemma chunks_short : Forall (fun c => (length c <= 8)%nat) chunks.
Proof.
  destruct chunks_of_payload as (_ & W & _).
  apply well_chunked_bounds in W; [|lia].
  eapply Forall_impl; [|exact W].
  intros c R. cbv beta in R. lia.
Qed.

Lemma session_unfold (rs : list event) :
  session payload rs
  = Some (bind (emit chunks (START (array_get chunks 0)))
               (fun _ => emit_all chunks rs) (indexManager count)).
Proof.
  unfold session, main_with. rewrite chunked. reflexivity.
Qed.

Lemma session_empty (rs : list event) :
  chunks = [] -> session payload rs = Some (Crash TypeError [Log SendingChunk0]).
Proof.
  intros E. rewrite session_unfold. subst chunks. reflexivity.
Qed.

Lemma session_start (rs : list event) (c0 : Buffer) (rest : list Buffer) :
  chunks = c0 :: rest ->
  session payload rs
  = Some (after (transmission SendingChunk0 c0)
                (emit_all chunks rs (indexManager count))).
Proof.
  intros E. rewrite session_unfold.
  rewrite (bind_Done _ _ _ tt (indexManager count)
                     (transmission SendingChunk0 c0)); [reflexivity|].
  pose proof chunks_short as S. rewrite E in S. inversion S.
  cbn [emit]. replace (array_get chunks 0) with (Some c0)
    by (rewrite E; reflexivity).
  apply sendFirstChunk_short. assumption.
Qed.

Lemma session_app (rs rs' : list event) (s : index_state) (out : list action) :
  session payload rs = Some (Done tt s out) ->
  session payload (rs ++ rs') = Some (after out (emit_all chunks rs' s)).
Proof.
  rewrite !session_unfold. intros E. inversion E as [E']. f_equal.
  erewrite bind_ext by (intros; apply emit_all_app).
  rewrite <- bind_assoc.
  rewrite (bind_Done _ _ _ tt s out E'). reflexivity.
Qed.

Lemma session_in_flight (rs : list event) (s : index_state) (out : list action) :
  Forall ack rs ->
  session payload rs = Some (Done tt s out) ->
  in_flight chunks s out.
Proof.
  intros A E. destruct (list_cases chunks) as [C | (c0 & rest & C)].
  - rewrite session_empty in E by exact C. discriminate.
  - rewrite (session_start rs c0 rest C) in E.
    inversion E as [E']. apply after_Done_inv in E'.
    destruct E' as (o' & E' & ->).
    refine (proj1 (emit_all_in_flight chunks chunks_short rs A _ _ _ _ _ E')).
    assert (1 <= count) by (rewrite C; cbn [length]; lia).
    unfold in_flight, indexManager. cbn [idx max].
    split; [reflexivity|]. split; [lia|].
    exists [], SendingChunk0, c0. rewrite C. auto.
Qed.

End Sessions.

(* ================================================================== *)
(** * Reading the indices and the characters off a run *)

Lemma indices_sent_app (a b : list action) :
  indices_sent (a ++ b) = indices_sent a ++ indices_sent b.
Proof. apply flat_map_app. Qed.

Lemma written_app (a b : list action) : written (a ++ b) = written a ++ written b.
Proof. apply flat_map_app. Qed.

Lemma indices_sent_writes (l : list ascii) : indices_sent (map Write l) = [].
Proof. induction l as [|c l IH]; [reflexivity | exact IH]. Qed.

Lemma written_writes (l : list ascii) : written (map Write l) = l.
Proof.
  induction l as [|c l IH]; [reflexivity|].
  cbn [map written flat_map app]. f_equal. exact IH.
Qed.

Lemma written_transmission (line : log_line) (c : Buffer) :
  written (transmission line c) = String.list_ascii_of_string (wire_text c).
Proof.
  unfold transmission. change (written (Log line :: ?l)) with (written l).
  apply written_writes.
Qed.



Lemma written_sends (cs : list Buffer) :
  forall i, written (sends_from i cs)
            = flat_map (fun c => String.list_ascii_of_string (wire_text c)) cs.
Proof.
  induction cs as [|c cs IH]; intros i; [reflexivity|].
  cbn [sends_from flat_map].
  rewrite written_app, written_transmission, IH. reflexivity.
Qed.

Lemma failures_run (chunks : list Buffer) (s : index_state) (c : Buffer) :
  Forall (fun c => (length c <= 8)%nat) chunks ->
  array_get chunks (idx s) = Some c ->
  forall n,
    emit_all chunks (repeat CHUNK_FAILURE n) s
    = Done tt s (concat (repeat (transmission (RepeatingChunk (idx s)) c) n)).
Proof.
  intros S G. induction n as [|n IH]; [reflexivity|].
  cbn [repeat emit_all emit concat].
  rewrite (bind_Done _ _ _ tt s _ (repeatChunk_again chunks S s c G)).
  rewrite IH. reflexivity.
Qed.

(** A session in which every chunk is acknowledged at once. *)
Lemma session_successes (payload : Buffer) (chunks : list Buffer) :
  inGroupsOf payload 8 = Some chunks ->
  (1 <= length chunks)%nat ->
  session payload (repeat CHUNK_SUCCESS (length chunks))
  = Some (Exited 0 (sends_from 0 chunks ++ closing)).
Proof.
  intros G L.
  destruct (list_cases chunks) as [C | (c0 & rest & C)];
    [subst chunks; cbn [length] in L; lia|].
  rewrite (session_start payload chunks G _ c0 rest C). f_equal.
  pose proof (successes_run chunks (chunks_short payload chunks G)
                            (length rest) 0) as R.
  change (indexManager (Z.of_nat (length chunks)))
    with {| idx := Z.of_nat 0; max := Z.of_nat (length chunks) - 1 |}.
  replace (repeat CHUNK_SUCCESS (length chunks))
    with (repeat CHUNK_SUCCESS (S (length rest))) by (rewrite C; reflexivity).
  rewrite R by (rewrite C; reflexivity).
  rewrite C. cbn [skipn after sends_from announce].
  rewrite <- app_assoc. reflexivity.
Qed.


(* ================================================================== *)
(** * [trim] and the comparison of strings *)

Lemma jsstring_eqb_eq (a b : jsstring) : jsstring_eqb a b = true <-> a = b.
Proof.
  unfold jsstring_eqb. destruct (list_eq_dec N.eq_dec a b); split;
    auto; discriminate.
Qed.

Lemma jsstring_eqb_neq (a b : jsstring) : jsstring_eqb a b = false <-> a <> b.
Proof.
  unfold jsstring_eqb. destruct (list_eq_dec N.eq_dec a b); split;
    auto; try discriminate. intros N. contradiction.
Qed.

Lemma trim_start_split (s : jsstring) :
  exists pre, s = pre ++ trim_start s /\ blank pre.
Proof.
  induction s as [|c s (pre & E & B)].
  - exists []. split; [reflexivity | constructor].
  - cbn [trim_start]. destruct (is_space c) eqn:Sp.
    + exists (c :: pre). split; [cbn [app]; f_equal; exact E|].
      constructor; assumption.
    + exists []. split; [reflexivity | constructor].
Qed.

Lemma trim_start_head (s : jsstring) (c : N) (rest : jsstring) :
  trim_start s = c :: rest -> is_space c = false.
Proof.
  induction s as [|d s IH]; [discriminate|].
  cbn [trim_start]. destruct (is_space d) eqn:Sp; [exact IH|].
  intros E. inversion E; subst. exact Sp.
Qed.

Lemma trim_start_skip (pre : jsstring) (c : N) (rest : jsstring) :
  blank pre -> is_space c = false -> trim_start (pre ++ c :: rest) = c :: rest.
Proof.
  intros B Sp. induction B as [|d pre D _ IH].
  - cbn [app trim_start]. rewrite Sp. reflexivity.
  - cbn [app trim_start]. rewrite D. exact IH.
Qed.

Lemma trim_split (s : jsstring) :
  exists pre post, s = pre ++ trim s ++ post /\ blank pre /\ blank post.
Proof.
  destruct (trim_start_split s) as (pre & E & B).
  destruct (trim_start_split (rev (trim_start s))) as (tsop & E' & B').
  exists pre, (rev tsop). split; [|split; [exact B|]].
  - unfold trim. rewrite <- rev_app_distr, <- E', rev_involutive. exact E.
  - apply Forall_rev, B'.
Qed.

Lemma trim_first (s : jsstring) (c : N) (rest : jsstring) :
  trim s = c :: rest -> is_space c = false.
Proof.
  intros E. destruct (trim_start_split (rev (trim_start s))) as (tsop & E' & _).
  apply (f_equal (@rev N)) in E'. rewrite rev_involutive, rev_app_distr in E'.
  fold (trim s) in E'. rewrite E in E'. cbn [app] in E'.
  apply trim_start_head in E'. exact E'.
Qed.

Lemma trim_last (s : jsstring) (c : N) (front : jsstring) :
  trim s = front ++ [c] -> is_space c = false.
Proof.
  unfold trim. intros E. apply (f_equal (@rev N)) in E.
  rewrite rev_involutive, rev_app_distr in E. cbn [rev app] in E.
  apply trim_start_head in E. exact E.
Qed.

Lemma trim_one (s : jsstring) (c : N) :
  is_space c = false ->
  (trim s = [c]
   <-> exists pre post, s = pre ++ [c] ++ post /\ blank pre /\ blank post).
Proof.
  intros Sp. split.
  - intros E. destruct (trim_split s) as (pre & post & S & B & B').
    rewrite E in S. eauto.
  - intros (pre & post & -> & B & B'). unfold trim. cbn [app].
    rewrite trim_start_skip by assumption.
    change (c :: post) with ([c] ++ post). rewrite rev_app_distr. cbn [rev app].
    rewrite trim_start_skip; [reflexivity | apply Forall_rev, B' | exact Sp].
Qed.

(* ================================================================== *)
(** * Base64 *)

(** Lists taken three elements at a time, as the encoder takes them. *)
Lemma list_by_three {A} (P : list A -> Prop) :
  P [] ->
  (forall a, P [a]) ->
  (forall a b, P [a; b]) ->
  (forall a b c l, P l -> P (a :: b :: c :: l)) ->
  forall l, P l.
Proof.
  intros H0 H1 H2 H3 l.
  assert (All : P l /\ (forall a, P (a :: l)) /\ (forall a b, P (a :: b :: l))).
  { induction l as [|x l (IH0 & IH1 & IH2)].
    - auto.
    - split; [apply IH1|]. split; [intros a; apply IH2|].
      intros a b. apply H3, IH0. }
  apply All.
Qed.

Lemma below_64 (P : Z -> Prop) :
  (forall k : nat, (k < 64)%nat -> P (Z.of_nat k)) ->
  forall d, 0 <= d < 64 -> P d.
Proof.
  intros H d R. rewrite <- (Z2Nat.id d) by lia. apply H. lia.
Qed.

Lemma In_by_eqb (c : ascii) (l : list ascii) :
  existsb (Ascii.eqb c) l = true -> In c l.
Proof.
  intros E. apply existsb_exists in E. destruct E as (x & I & E).
  apply Ascii.eqb_eq in E. subst x. exact I.
Qed.

(** Every digit has a letter of its own, which is printable and is not the
    filling character. *)
Lemma base64_char_digit (d : Z) :
  0 <= d < 64 ->
  base64_digit (base64_char d) = Some d
  /\ Ascii.eqb (base64_char d) "=" = false
  /\ base64_letter (base64_char d)
  /\ printable (base64_char d).
Proof.
  revert d. apply below_64. intros k Lt.
  do 64 (destruct k as [|k];
         [split; [reflexivity|]; split; [reflexivity|];
          split; [apply In_by_eqb; reflexivity | unfold printable; vm_compute; lia]
         |]).
  lia.
Qed.

Section Groups.

Variables b1 b2 b3 : byte.

Local Abbreviation n := (group24 b1 b2 b3).

Lemma group24_bytes :
  n / 65536 = byte_val b1 /\ n / 256 mod 256 = byte_val b2
  /\ n mod 256 = byte_val b3.
Proof.
  unfold group24.
  pose proof (byte_val_range b1). pose proof (byte_val_range b2).
  pose proof (byte_val_range b3).
  repeat split; Z.div_mod_to_equations; lia.
Qed.

Lemma group24_digits :
  0 <= n / 262144 < 64 /\ 0 <= n / 4096 mod 64 < 64
  /\ 0 <= n / 64 mod 64 < 64 /\ 0 <= n mod 64 < 64
  /\ n / 262144 * 262144 + n / 4096 mod 64 * 4096 + n / 64 mod 64 * 64
     + n mod 64 = n.
Proof.
  unfold group24.
  pose proof (byte_val_range b1). pose proof (byte_val_range b2).
  pose proof (byte_val_range b3).
  repeat split; Z.div_mod_to_equations; lia.
Qed.

(** The four letters of a group decode to the group. *)
Lemma digits24_group :
  digits24 (base64_char (n / 262144)) (base64_char (n / 4096 mod 64))
           (base64_char (n / 64 mod 64)) (base64_char (n mod 64))
  = Some n.
Proof.
  destruct group24_digits as (R1 & R2 & R3 & R4 & E).
  unfold digits24.
  rewrite (proj1 (base64_char_digit _ R1)), (proj1 (base64_char_digit _ R2)),
    (proj1 (base64_char_digit _ R3)), (proj1 (base64_char_digit _ R4)).
  rewrite E. reflexivity.
Qed.

Lemma group24_decoded :
  [byte_of_Z (n / 65536); byte_of_Z (n / 256 mod 256); byte_of_Z (n mod 256)]
  = [b1; b2; b3].
Proof.
  destruct group24_bytes as (-> & -> & ->). rewrite !byte_of_Z_val.
  reflexivity.
Qed.

End Groups.

Lemma base64_encode_nonempty (data : Buffer) :
  base64_encode data = EmptyString -> data = [].
Proof.
  destruct data as [|a [|b [|c rest]]]; cbn [base64_encode];
    [reflexivity | discriminate..].
Qed.

Lemma base64_decode_more (c1 c2 c3 c4 a : ascii) (t : string) :
  base64_decode (String c1 (String c2 (String c3 (String c4 (String a t)))))
  = match digits24 c1 c2 c3 c4, base64_decode (String a t) with
    | Some n, Some bytes =>
        Some (byte_of_Z (n / 65536) :: byte_of_Z (n / 256 mod 256)
                :: byte_of_Z (n mod 256) :: bytes)
    | _, _ => None
    end.
Proof. reflexivity. Qed.

Lemma base64_decode_last (c1 c2 c3 c4 : ascii) :
  Ascii.eqb c4 "=" = false ->
  base64_decode (String c1 (String c2 (String c3 (String c4 EmptyString))))
  = option_map (fun n => [byte_of_Z (n / 65536); byte_of_Z (n / 256 mod 256);
                          byte_of_Z (n mod 256)])
               (digits24 c1 c2 c3 c4).
Proof.
  intros E. cbn [base64_decode]. rewrite E. reflexivity.
Qed.

(** Decoding undoes encoding, whatever the length. *)
Lemma base64_decode_encode :
  forall data : Buffer, base64_decode (base64_encode data) = Some data.
Proof.
  apply list_by_three.
  - reflexivity.
  - intros a. cbn [base64_encode]. cbv zeta.
    destruct (group24_digits a x00 x00) as (R1 & R2 & _).
    destruct (group24_bytes a x00 x00) as (B1 & _).
    assert (Z3 : group24 a x00 x00 / 64 mod 64 = 0).
    { unfold group24. pose proof (byte_val_range a).
      change (byte_val x00) with 0. Z.div_mod_to_equations. lia. }
    assert (Z4 : group24 a x00 x00 mod 64 = 0).
    { unfold group24. pose proof (byte_val_range a).
      change (byte_val x00) with 0. Z.div_mod_to_equations. lia. }
    cbn [base64_decode]. change (Ascii.eqb "=" "=") with true. cbv iota.
    change "A"%char with (base64_char 0).
    rewrite <- Z3 at 1. rewrite <- Z4 at 1. rewrite digits24_group.
    cbn [option_map]. rewrite B1, byte_of_Z_val. reflexivity.
  - intros a b. cbn [base64_encode]. cbv zeta.
    destruct (group24_digits a b x00) as (R1 & R2 & R3 & _).
    destruct (group24_bytes a b x00) as (B1 & B2 & _).
    assert (Z4 : group24 a b x00 mod 64 = 0).
    { unfold group24. pose proof (byte_val_range a). pose proof (byte_val_range b).
      change (byte_val x00) with 0. Z.div_mod_to_equations. lia. }
    cbn [base64_decode]. change (Ascii.eqb "=" "=") with true. cbv iota.
    rewrite (proj1 (proj2 (base64_char_digit _ R3))).
    change "A"%char with (base64_char 0).
    rewrite <- Z4 at 1. rewrite digits24_group.
    cbn [option_map]. rewrite B1, B2, !byte_of_Z_val. reflexivity.
  - intros a b c rest IH. cbn [base64_encode]. cbv zeta.
    destruct (group24_digits a b c) as (_ & _ & _ & R4 & _).
    destruct (base64_encode rest) as [|ch t] eqn:E.
    + apply base64_encode_nonempty in E. subst rest.
      rewrite base64_decode_last
        by exact (proj1 (proj2 (base64_char_digit _ R4))).
      rewrite digits24_group. cbn [option_map].
      rewrite group24_decoded. reflexivity.
    + rewrite base64_decode_more, digits24_group, IH.
      destruct (group24_bytes a b c) as (B1 & B2 & B3).
      rewrite B1, B2, B3, !byte_of_Z_val. reflexivity.
Qed.

(** The letters of a block of nine bytes. *)
Lemma base64_encode_block (block : Buffer) :
  length block = 9%nat ->
  String.length (base64_encode block) = 12%nat
  /\ Forall (fun c => base64_letter c /\ printable c)
            (String.list_ascii_of_string (base64_encode block)).
Proof.
  intros L.
  do 9 (destruct block as [|? block]; [discriminate L|]).
  destruct block; [|discriminate L].
  split; [reflexivity|].
  cbn [base64_encode String.list_ascii_of_string]. cbv zeta.
  repeat match goal with
         | |- Forall _ [] => constructor
         | |- Forall _ (base64_char _ :: _) =>
             constructor; [apply base64_char_digit, group24_digits|]
         end.
Qed.

(* ================================================================== *)
(** * More on the framer *)

Lemma Buffer_concat_length (bufs : list Buffer) (n : nat) :
  length (Buffer_concat bufs n) = n.
Proof.
  unfold Buffer_concat. cbv zeta.
  rewrite length_app, length_firstn, repeat_length. lia.
Qed.

Lemma wrap32_range (z : Z) : - 2 ^ 31 <= wrap32 z < 2 ^ 31.
Proof.
  unfold wrap32. pose proof (Z.mod_pos_bound (z + 2 ^ 31) (2 ^ 32) ltac:(lia)).
  lia.
Qed.

Lemma wrap32_mod (z : Z) : wrap32 z mod 2 ^ 32 = z mod 2 ^ 32.
Proof.
  unfold wrap32. rewrite Zminus_mod_idemp_l. f_equal. lia.
Qed.

Lemma double_mod (x y l : Z) :
  x mod 2 ^ 32 = y mod 2 ^ 32 ->
  (2 * x + l) mod 2 ^ 32 = (2 * y + l) mod 2 ^ 32.
Proof.
  intros E.
  rewrite <- (Z.add_mod_idemp_l (2 * x)), <- (Z.mul_mod_idemp_r 2 x) by lia.
  rewrite E.
  rewrite (Z.mul_mod_idemp_r 2 y), (Z.add_mod_idemp_l (2 * y)) by lia.
  reflexivity.
Qed.

(** One turn of [checkSum] in terms of the parity alone. *)
Lemma checkSum_step_Int (acc : Z) (element : byte) :
  checkSum_step (Int acc) element
  = Int (wrap32 (2 * wrap32 acc) + lsb element).
Proof.
  unfold checkSum_step. cbv zeta. rewrite last_binary_digit.
  unfold js_shl, js_add, ToInt32.
  rewrite Z.shiftl_mul_pow2 by lia. change (2 ^ 1) with 2.
  rewrite (Z.mul_comm (wrap32 acc) 2). reflexivity.
Qed.

(** Whatever the length, the code's accumulator is an integer that agrees
    with the unbounded one modulo 2^32. *)
Lemma checkSum_fold_mod (data : Buffer) :
  forall acc acc' : Z,
    acc mod 2 ^ 32 = acc' mod 2 ^ 32 ->
    - 2 ^ 31 <= acc <= 2 ^ 31 ->
    exists z,
      fold_left checkSum_step data (Int acc) = Int z
      /\ z mod 2 ^ 32 = fold_left spec_step data acc' mod 2 ^ 32
      /\ - 2 ^ 31 <= z <= 2 ^ 31.
Proof.
  induction data as [|b data IH]; intros acc acc' E R.
  - exists acc. auto.
  - cbn [fold_left]. rewrite checkSum_step_Int.
    apply IH.
    + unfold spec_step. rewrite Z.shiftl_mul_pow2 by lia. change (2 ^ 1) with 2.
      rewrite (Z.mul_comm acc' 2).
      rewrite <- (Z.add_mod_idemp_l (wrap32 (2 * wrap32 acc))) by lia.
      rewrite wrap32_mod, Z.add_mod_idemp_l by lia.
      apply double_mod. rewrite wrap32_mod. exact E.
    + pose proof (wrap32_range (2 * wrap32 acc)). pose proof (lsb_range b). lia.
Qed.

Lemma spec_accumulator_snoc (l : Buffer) (b : byte) (a : Z) :
  fold_left spec_step (l ++ [b]) a = 2 * fold_left spec_step l a + lsb b.
Proof.
  rewrite fold_left_app. cbn [fold_left]. unfold spec_step at 1.
  rewrite Z.shiftl_mul_pow2 by lia. change (2 ^ 1) with 2. lia.
Qed.

(** The accumulator is the number whose binary digits are the parities. *)
Lemma spec_accumulator_parities (l1 : Buffer) :
  forall l2 : Buffer,
    length l1 = length l2 ->
    fold_left spec_step l1 0 = fold_left spec_step l2 0 ->
    parities l1 = parities l2.
Proof.
  induction l1 as [|b1 l1 IH] using rev_ind; intros l2 L E.
  - destruct l2; [reflexivity | discriminate L].
  - destruct l2 as [|b2 l2 _] using rev_ind.
    + rewrite length_app in L. cbn [length] in L. lia.
    + rewrite !length_app in L. cbn [length] in L.
      rewrite !spec_accumulator_snoc in E.
      pose proof (lsb_range b1). pose proof (lsb_range b2).
      unfold parities. rewrite !map_app. cbn [map].
      f_equal; [apply IH; lia | f_equal; lia].
Qed.

Lemma checkSum_parities (d1 : Buffer) :
  forall (d2 : Buffer) (cs : number),
    parities d1 = parities d2 ->
    fold_left checkSum_step d1 cs = fold_left checkSum_step d2 cs.
Proof.
  induction d1 as [|b1 d1 IH]; intros [|b2 d2] cs E; try discriminate E.
  - reflexivity.
  - cbn [parities map] in E. inversion E as [[E1 E2]].
    cbn [fold_left].
    replace (checkSum_step cs b2) with (checkSum_step cs b1).
    + apply IH, E2.
    + unfold checkSum_step. cbv zeta. rewrite !last_binary_digit, E1.
      reflexivity.
Qed.

Lemma spec_accumulator_zeros (k : nat) (a : Z) :
  fold_left spec_step (repeat x00 k) a = a * 2 ^ Z.of_nat k.
Proof.
  revert a. induction k as [|k IH]; intros a.
  - cbn [repeat fold_left]. change (2 ^ Z.of_nat 0) with 1. lia.
  - cbn [repeat fold_left]. rewrite IH. unfold spec_step.
    change (lsb x00) with 0. rewrite Z.shiftl_mul_pow2 by lia.
    rewrite Nat2Z.inj_succ, Z.pow_succ_r by lia. change (2 ^ 1) with 2. lia.
Qed.

(* ================================================================== *)
(** * More on [inGroupsOf] *)

Lemma well_chunked_nth {A} (size : nat) (cs : list (list A)) :
  forall (l : list A) (k : nat) (c : list A),
    well_chunked size cs ->
    concat cs = l ->
    nth_error cs k = Some c ->
    c = firstn size (skipn (k * size) l).
Proof.
  induction cs as [|c0 rest IH]; intros l k c W C N.
  - destruct k; discriminate N.
  - destruct W as [H W]. cbn [concat] in C. subst l. destruct k as [|k].
    + cbn [nth_error] in N. inversion N; subst c0. cbn [Nat.mul skipn].
      destruct rest as [|c1 rest'].
      * cbn [concat]. rewrite app_nil_r. symmetry. apply firstn_all2. lia.
      * rewrite firstn_app, firstn_all2 by lia.
        replace (size - length c)%nat with 0%nat by lia.
        cbn [firstn]. symmetry. apply app_nil_r.
    + cbn [nth_error] in N.
      assert (F : length c0 = size)
        by (destruct rest; [destruct k; discriminate N | exact H]).
      rewrite (IH (concat rest) k c W eq_refl N). f_equal.
      replace (S k * size)%nat with (k * size + size)%nat by lia.
      rewrite <- skipn_skipn. f_equal.
      rewrite skipn_app, skipn_all2 by lia.
      replace (size - length c0)%nat with 0%nat by lia. reflexivity.
Qed.

Lemma inGroupsOf_loop_stuck {A} (ary : list A) :
  forall (fuel i : nat) (result : list (list A)),
    (i < length ary)%nat -> inGroupsOf_loop fuel ary 0 i result = None.
Proof.
  induction fuel as [|fuel IH]; intros i result L; cbn [inGroupsOf_loop];
    destruct (Nat.ltb_spec i (length ary)); try lia; [reflexivity|].
  rewrite Nat.add_0_r. apply IH, L.
Qed.

(* ================================================================== *)
(** * More on the index and the handlers *)

Lemma times_increase (n : nat) :
  forall s : index_state,
    times n increase s
    = Done tt {| idx := Z.max (idx s) (Z.min (idx s + Z.of_nat n) (max s));
                 max := max s |} [].
Proof.
  induction n as [|n IH]; intros s.
  - cbn [times]. unfold ret. destruct s as [i m]. cbn [idx max].
    f_equal. f_equal. lia.
  - cbn [times]. unfold bind, increase.
    destruct (Z.geb_spec (idx s) (max s)) as [Ge|Lt].
    + rewrite IH. cbn [after app]. f_equal. f_equal. lia.
    + rewrite IH. cbn [after app idx max]. f_equal. f_equal. lia.
Qed.

Lemma sendChunk_cases (data : option Buffer) (s : index_state) :
  (exists e, sendChunk data s = Crash e [])
  \/ (exists text, sendChunk data s = Done tt s (map Write text)).
Proof.
  unfold sendChunk, bind, lift. destruct (wire data) as [text|e].
  - right. exists (String.list_ascii_of_string text).
    rewrite tell_all_run. reflexivity.
  - left. exists e. reflexivity.
Qed.

Lemma successes_success (rs : list event) :
  successes (CHUNK_SUCCESS :: rs) = successes rs + 1.
Proof.
  unfold successes. cbn [filter is_success length]. lia.
Qed.

Lemma successes_failure (rs : list event) :
  successes (CHUNK_FAILURE :: rs) = successes rs.
Proof. reflexivity. Qed.

Lemma successes_nonneg (rs : list event) : 0 <= successes rs.
Proof. unfold successes. lia. Qed.

Lemma indices_sent_transmission (line : log_line) (c : Buffer) (j : Z) :
  sent_index (Log line) = Some j -> indices_sent (transmission line c) = [j].
Proof.
  intros E. unfold transmission.
  change (indices_sent (?a :: ?l))
    with (match sent_index a with Some i => [i] | None => [] end
            ++ indices_sent l).
  rewrite indices_sent_writes, E. reflexivity.
Qed.

Lemma transmissions_cons (t : log_line * Buffer) (ts : list (log_line * Buffer)) :
  transmissions (t :: ts) = transmission (fst t) (snd t) ++ transmissions ts.
Proof. reflexivity. Qed.

Lemma keeps_open_transmission (line : log_line) (c : Buffer) :
  Forall keeps_open (transmission line c).
Proof.
  unfold transmission. constructor; [exact I|].
  induction (String.list_ascii_of_string (wire_text c)) as [|ch l IH];
    constructor; [exact I | exact IH].
Qed.

Lemma keeps_open_transmissions (ts : list (log_line * Buffer)) :
  Forall keeps_open (transmissions ts).
Proof.
  induction ts as [|t ts IH]; [constructor|].
  rewrite transmissions_cons. apply Forall_app.
  split; [apply keeps_open_transmission | exact IH].
Qed.

Lemma wire_text_length (c : Buffer) :
  (length c <= 8)%nat ->
  length (String.list_ascii_of_string (wire_text c)) = 12%nat.
Proof.
  intros L. unfold wire_text.
  assert (B : length (appendChecksum (padded c)) = 9%nat)
    by apply Buffer_concat_length.
  destruct (appendChecksum (padded c)) as [|? block]; [discriminate B|].
  do 8 (destruct block as [|? block]; [discriminate B|]).
  destruct block; [reflexivity | discriminate B].
Qed.

Section Shapes.

Variable chunks : list Buffer.
Hypothesis chunks_short : Forall (fun c => (length c <= 8)%nat) chunks.

Local Abbreviation count := (Z.of_nat (length chunks)).

Lemma follows_gentle (ts : list (log_line * Buffer)) :
  forall i, follows chunks i ts -> gentle (i :: indices_sent (transmissions ts)).
Proof.
  induction ts as [|t ts IH]; intros i F; [exact I|].
  destruct F as (j & S & Step & _ & F).
  rewrite transmissions_cons, indices_sent_app.
  rewrite (indices_sent_transmission _ _ j S).
  cbn [app gentle]. split; [exact Step | apply IH, F].
Qed.

Lemma follows_counts (ts : list (log_line * Buffer)) :
  forall i,
    follows chunks i ts ->
    length (indices_sent (transmissions ts)) = length ts
    /\ length (written (transmissions ts)) = (12 * length ts)%nat.
Proof.
  induction ts as [|t ts IH]; intros i F; [split; reflexivity|].
  destruct F as (j & S & _ & G & F). destruct (IH j F) as [I W].
  rewrite transmissions_cons, indices_sent_app, written_app, !length_app.
  rewrite (indices_sent_transmission _ _ j S), written_transmission.
  rewrite wire_text_length.
  - cbn [length]. split; lia.
  - unfold array_get in G. destruct (j <? 0); [discriminate G|].
    apply nth_error_In in G. rewrite Forall_forall in chunks_short.
    apply chunks_short, G.
Qed.

(** Every run of acknowledgements, in full: where the index ends, whether
    the session ends, and what was done. *)
Lemma acks_run (rs : list event) :
  Forall ack rs ->
  forall s : index_state,
    max s = count - 1 ->
    0 <= idx s <= max s ->
    exists ts,
      follows chunks (idx s) ts
      /\ emit_all chunks rs s
         = if idx s + successes rs <=? max s
           then Done tt {| idx := idx s + successes rs; max := max s |}
                     (transmissions ts)
           else Exited 0 (transmissions ts ++ closing).
Proof.
  induction 1 as [|e rs A _ IH]; intros s M R.
  - exists []. split; [exact I|]. cbn [emit_all]. unfold ret, successes.
    cbn [filter length]. change (Z.of_nat 0) with 0. rewrite Z.add_0_r.
    destruct (Z.leb_spec (idx s) (max s)); [|lia].
    destruct s; reflexivity.
  - destruct A as [-> | ->]; cbn [emit_all emit].
    + rewrite successes_success. pose proof (successes_nonneg rs) as P.
      destruct (Z.lt_ge_cases (idx s) (max s)) as [Lt|Ge].
      * destruct (array_get_inside chunks (idx s + 1)) as [c G]; [lia|].
        destruct (IH {| idx := idx s + 1; max := max s |} M
                     ltac:(cbn [idx max]; lia)) as (ts & F & E).
        cbn [idx max] in F, E.
        exists ((SendingChunk (idx s + 1), c) :: ts). split.
        -- exists (idx s + 1). cbn [fst snd sent_index]. auto.
        -- rewrite (bind_Done _ _ _ tt _ _
                      (sendNextChunk_advance chunks chunks_short s c Lt G)).
           rewrite E, transmissions_cons. cbn [fst snd].
           replace (idx s + (successes rs + 1))
             with (idx s + 1 + successes rs) by lia.
           destruct (idx s + 1 + successes rs <=? max s); cbn [after];
             [reflexivity | rewrite app_assoc; reflexivity].
      * exists []. split; [exact I|]. unfold bind.
        rewrite sendNextChunk_end by lia.
        destruct (Z.leb_spec (idx s + (successes rs + 1)) (max s)); [lia|].
        reflexivity.
    + rewrite successes_failure.
      destruct (array_get_inside chunks (idx s)) as [c G]; [lia|].
      destruct (IH s M R) as (ts & F & E).
      exists ((RepeatingChunk (idx s), c) :: ts). split.
      * exists (idx s). cbn [fst snd sent_index]. auto.
      * rewrite (bind_Done _ _ _ tt _ _
                   (repeatChunk_again chunks chunks_short s c G)).
        rewrite E, transmissions_cons. cbn [fst snd].
        destruct (idx s + successes rs <=? max s); cbn [after];
          [reflexivity | rewrite app_assoc; reflexivity].
Qed.

End Shapes.

Lemma chunks_nonempty (payload : Buffer) (chunks : list Buffer) :
  inGroupsOf payload 8 = Some chunks ->
  (payload <> [] <-> exists c0 rest, chunks = c0 :: rest).
Proof.
  intros G. destruct (chunks_of_payload payload chunks G) as (C & W & _).
  split.
  - intros N. destruct (list_cases chunks) as [E | E]; [|exact E].
    subst chunks. cbn [concat] in C. congruence.
  - intros (c0 & rest & E) P. subst chunks payload.
    destruct W as [H _]. cbn [concat] in P.
    apply app_eq_nil in P. destruct P as [P _]. subst c0.
    destruct rest; cbn [length] in H; lia.
Qed.

(** A session on a payload that is not empty, in full. *)
Lemma session_run (payload : Buffer) (chunks : list Buffer) (rs : list event)
      (c0 : Buffer) (rest : list Buffer) :
  inGroupsOf payload 8 = Some chunks ->
  chunks = c0 :: rest ->
  Forall ack rs ->
  exists ts,
    follows chunks 0 ts
    /\ session payload rs
       = Some (if successes rs <=? Z.of_nat (length chunks) - 1
               then Done tt {| idx := successes rs;
                               max := Z.of_nat (length chunks) - 1 |}
                         (transmission SendingChunk0 c0 ++ transmissions ts)
               else Exited 0 (transmission SendingChunk0 c0
                                ++ transmissions ts ++ closing)).
Proof.
  intros G C A.
  destruct (acks_run chunks (chunks_short payload chunks G) rs A
                     (indexManager (Z.of_nat (length chunks))))
    as (ts & F & E).
  - reflexivity.
  - cbn [indexManager idx max]. rewrite C. cbn [length]. lia.
  - exists ts. split; [exact F|].
    rewrite (session_start payload chunks G rs c0 rest C), E.
    cbn [indexManager idx max]. rewrite Z.add_0_l.
    destruct (successes rs <=? Z.of_nat (length chunks) - 1); reflexivity.
Qed.

(* ================================================================== *)
(** * Lines that are no acknowledgement *)

Lemma protocol_app (a b : list action) : protocol (a ++ b) = protocol a ++ protocol b.
Proof. apply filter_app. Qed.

Lemma protocol_writes (text : list ascii) : protocol (map Write text) = map Write text.
Proof.
  induction text as [|c text IH]; [reflexivity|].
  cbn [map protocol filter is_response negb]. f_equal. exact IH.
Qed.

Lemma map_trace_after {A} (out : list action) (o : outcome A) :
  map_trace protocol (after out o) = after (protocol out) (map_trace protocol o).
Proof.
  destruct o; cbn [after map_trace]; rewrite protocol_app; reflexivity.
Qed.

Lemma sendChunk_protocol (data : option Buffer) (s : index_state) :
  map_trace protocol (sendChunk data s) = sendChunk data s.
Proof.
  destruct (sendChunk_cases data s) as [[e E] | [text E]]; rewrite E.
  - reflexivity.
  - cbn [map_trace]. rewrite protocol_writes. reflexivity.
Qed.

(** No handler prints a ['Response: '] line. *)
Lemma emit_protocol (chunks : list Buffer) (e : event) (s : index_state) :
  map_trace protocol (emit chunks e s) = emit chunks e s.
Proof.
  destruct e as [chunk| | |]; cbn [emit].
  - unfold sendFirstChunk, bind, tell. rewrite map_trace_after.
    rewrite sendChunk_protocol. reflexivity.
  - unfold sendNextChunk, bind, increase, tell.
    destruct (idx s >=? max s); cbn [after app].
    + reflexivity.
    + rewrite !map_trace_after, sendChunk_protocol. reflexivity.
  - unfold repeatChunk, bind, get, tell. cbn [after app].
    rewrite !map_trace_after, sendChunk_protocol. reflexivity.
  - reflexivity.
Qed.

Lemma bind_protocol (m f g : M unit) (s : index_state) :
  map_trace protocol (m s) = m s ->
  (forall s', map_trace protocol (f s') = g s') ->
  map_trace protocol (bind m (fun _ => f) s) = bind m (fun _ => g) s.
Proof.
  intros Hm Hf. unfold bind.
  destruct (m s) as [[] s1 out|e out|code out]; cbn [map_trace] in Hm |- *.
  - rewrite map_trace_after, Hf. injection Hm as P. rewrite P. reflexivity.
  - exact Hm.
  - exact Hm.
Qed.

Lemma lines_as_events (chunks : list Buffer) (lines : list jsstring) :
  forall s : index_state,
    map_trace protocol (on_data_all chunks lines s)
    = emit_all chunks (events_of lines) s.
Proof.
  induction lines as [|data lines IH]; intros s; [reflexivity|].
  cbn [on_data_all events_of flat_map]. fold (events_of lines).
  unfold on_data. cbv zeta.
  destruct (jsstring_eqb (trim data) (lit "k")).
  - cbn [app emit_all]. apply bind_protocol; [apply emit_protocol | exact IH].
  - destruct (jsstring_eqb (trim data) (lit "f")).
    + cbn [app emit_all]. apply bind_protocol; [apply emit_protocol | exact IH].
    + cbn [app]. unfold bind, tell. rewrite map_trace_after, IH.
      apply after_nil.
Qed.

(* ================================================================== *)
(** * The stream of an undisturbed session *)

Lemma string_of_list_ascii_app (a b : list ascii) :
  String.string_of_list_ascii (a ++ b)
  = String.string_of_list_ascii a +++ String.string_of_list_ascii b.
Proof.
  induction a as [|c a IH]; [reflexivity|].
  cbn [app String.string_of_list_ascii String.append]. f_equal. exact IH.
Qed.

Lemma base64_encode_block_app (block rest : Buffer) :
  length block = 9%nat ->
  base64_encode (block ++ rest) = base64_encode block +++ base64_encode rest.
Proof.
  intros L.
  do 9 (destruct block as [|? block]; [discriminate L|]).
  destruct block; [reflexivity | discriminate L].
Qed.

Lemma framed_length (c : Buffer) : length (framed c) = 9%nat.
Proof. apply Buffer_concat_length. Qed.

Lemma framed_chunk (c : Buffer) :
  (length c <= 8)%nat -> firstn 8 (framed c) = padded c.
Proof.
  intros L. unfold framed. pose proof (padded_length c L) as P.
  rewrite appendChecksum_full by exact P.
  rewrite <- P at 1. rewrite firstn_app, Nat.sub_diag, firstn_all.
  apply app_nil_r.
Qed.

Lemma written_stream (chunks : list Buffer) :
  String.string_of_list_ascii
    (flat_map (fun c => String.list_ascii_of_string (wire_text c)) chunks)
  = base64_encode (concat (map framed chunks)).
Proof.
  induction chunks as [|c chunks IH]; [reflexivity|].
  cbn [flat_map map concat].
  rewrite string_of_list_ascii_app, String.string_of_list_ascii_of_string, IH.
  rewrite base64_encode_block_app by apply framed_length. reflexivity.
Qed.

Lemma framed_chunks (chunks : list Buffer) :
  Forall (fun c => (length c <= 8)%nat) chunks ->
  map (firstn 8) (map framed chunks) = map padded chunks.
Proof.
  induction 1 as [|c chunks L _ IH]; [reflexivity|].
  cbn [map]. rewrite framed_chunk by exact L. f_equal. exact IH.
Qed.

(* ================================================================== *)
(** * White space around a line *)

Lemma trim_start_blank (pre s : jsstring) :
  blank pre -> trim_start (pre ++ s) = trim_start s.
Proof.
  intros B. induction B as [|c pre C _ IH]; [reflexivity|].
  cbn [app trim_start]. rewrite C. exact IH.
Qed.

Lemma trim_start_all_blank (s : jsstring) : blank s -> trim_start s = [].
Proof.
  intros B. rewrite <- (app_nil_r s). rewrite trim_start_blank by exact B.
  reflexivity.
Qed.

Lemma trim_start_keeps (s post : jsstring) :
  trim_start s <> [] -> trim_start (s ++ post) = trim_start s ++ post.
Proof.
  induction s as [|c s IH]; intros N; [contradiction N; reflexivity|].
  cbn [app trim_start] in *. destruct (is_space c); [apply IH, N | reflexivity].
Qed.

Lemma trim_start_blank_or_not (s : jsstring) :
  (blank s /\ trim_start s = []) \/ trim_start s <> [].
Proof.
  induction s as [|c s IH]; [left; split; [constructor | reflexivity]|].
  cbn [trim_start]. destruct (is_space c) eqn:Sp.
  - destruct IH as [[B E] | N]; [left | right; exact N].
    split; [constructor; assumption | exact E].
  - right. discriminate.
Qed.

Lemma trim_around (pre data post : jsstring) :
  blank pre -> blank post -> trim (pre ++ data ++ post) = trim data.
Proof.
  intros Bpre Bpost. unfold trim. rewrite trim_start_blank by exact Bpre.
  destruct (trim_start_blank_or_not data) as [[B E] | N].
  - rewrite trim_start_blank by exact B.
    rewrite (trim_start_all_blank post Bpost), E. reflexivity.
  - rewrite trim_start_keeps by exact N. rewrite rev_app_distr.
    rewrite trim_start_blank by (apply Forall_rev, Bpost). reflexivity.
Qed.

(* ================================================================== *)
(** * The timers *)

Lemma length_list_ascii (s : string) :
  length (String.list_ascii_of_string s) = String.length s.
Proof.
  induction s as [|c s IH]; [reflexivity|].
  cbn [String.list_ascii_of_string length String.length]. f_equal. exact IH.
Qed.

Lemma get_nth_error (s : string) :
  forall n, String.get n s = nth_error (String.list_ascii_of_string s) n.
Proof.
  induction s as [|c s IH]; intros [|n]; cbn; try reflexivity. apply IH.
Qed.

Lemma char_at_nth (text : string) (i : Z) :
  0 <= i ->
  char_at text i = nth_error (String.list_ascii_of_string text) (Z.to_nat i).
Proof.
  intros P. unfold char_at. destruct (Z.ltb_spec i 0); [lia|].
  apply get_nth_error.
Qed.

Lemma protocol_idem (out : list action) : protocol (protocol out) = protocol out.
Proof.
  unfold protocol. induction out as [|a out IH]; [reflexivity|].
  cbn [filter]. destruct (negb (is_response a)) eqn:E; [|exact IH].
  cbn [filter]. rewrite E. f_equal. exact IH.
Qed.

Lemma timed_after_nil {A} (o : Timers.ending A) : Timers.after [] o = o.
Proof. destruct o; reflexivity. Qed.


Lemma timed_bind_Live {A B} (c : Timers.T A) (f : A -> Timers.T B) m a m' out :
  c m = Timers.Live a m' out -> Timers.bind c f m = Timers.after out (f a m').
Proof.
  intros E. unfold Timers.bind. rewrite E. reflexivity.
Qed.




Lemma idle_timers (m : Timers.machine) :
  Timers.idle m = true <-> Timers.timers m = [].
Proof.
  unfold Timers.idle. destruct (Timers.timers m); split;
    auto; discriminate.
Qed.

Lemma idle_pending (m : Timers.machine) :
  Timers.timers m = [] -> Timers.pending m = [] /\ tidy m.
Proof.
  intros E. unfold Timers.pending, tidy. rewrite E. auto.
Qed.

(** A callback that runs while at most one waits: it writes the next of the
    characters that wait, if it writes at all, and leaves the index alone. *)
Lemma run_timer_tidy (k : nat) (m : Timers.machine) :
  tidy m ->
  exists m' out,
    Timers.run_timer k m = Timers.Live tt m' out
    /\ tidy m'
    /\ Timers.index m' = Timers.index m
    /\ map Write (Timers.pending m) = out ++ map Write (Timers.pending m')
    /\ protocol out = out.
Proof.
  destruct m as [s g ts]. unfold tidy, Timers.run_timer, Timers.pending.
  cbn [Timers.timers Timers.base64 Timers.index]. intros Tidy.
  destruct ts as [|t [|t' ts]]; [| |destruct t, g; contradiction].
  - exists {| Timers.index := s; Timers.base64 := g; Timers.timers := [] |}, [].
    destruct k; cbn [nth_error]; repeat split.
  - destruct k as [|k].
    + cbn [nth_error firstn skipn app]. destruct t as [|idx].
      * destruct g as [text|]; [|contradiction].
        exists {| Timers.index := s; Timers.base64 := Some text;
                  Timers.timers := [Timers.Interval 0] |}, [].
        unfold Timers.set_timers.
        cbn [Timers.timers Timers.base64 Timers.index].
        split; [reflexivity|]. repeat split; try lia.
      * destruct g as [text|]; [|contradiction].
        destruct (Z.eqb_spec idx (Z.of_nat (String.length text))) as [E|N].
        -- exists {| Timers.index := s; Timers.base64 := Some text;
                     Timers.timers := [] |}, [].
           unfold Timers.set_timers.
           cbn [Timers.timers Timers.base64 Timers.index].
           split; [reflexivity|]. split; [exact I|]. split; [reflexivity|].
           split; [|reflexivity].
           rewrite skipn_all2; [reflexivity|]. rewrite length_list_ascii. lia.
        -- destruct (nth_error (String.list_ascii_of_string text) (Z.to_nat idx))
             as [c|] eqn:G;
             [|apply nth_error_None in G; rewrite length_list_ascii in G; lia].
           rewrite char_at_nth by lia. rewrite G.
           exists {| Timers.index := s; Timers.base64 := Some text;
                     Timers.timers := [Timers.Interval (idx + 1)] |}, [Write c].
           unfold Timers.bind, Timers.sendByte, Timers.tell, Timers.set_timers.
           cbn [Timers.after Timers.timers Timers.base64 Timers.index app].
           split; [reflexivity|]. split; [lia|]. split; [reflexivity|].
           split; [|reflexivity].
           rewrite (skipn_nth_error _ _ c G).
           replace (Z.to_nat (idx + 1)) with (S (Z.to_nat idx)) by lia.
           reflexivity.
    + exists {| Timers.index := s; Timers.base64 := g; Timers.timers := [t] |}, [].
      destruct k; cbn [nth_error]; repeat split; assumption.
Qed.

Lemma timed_sendChunk_Ok (data : option Buffer) (text : string) m :
  wire data = Ok text ->
  Timers.sendChunk data m
  = Timers.Live tt {| Timers.index := Timers.index m;
                      Timers.base64 := Some text;
                      Timers.timers := Timers.timers m ++ [Timers.Timeout] |} [].
Proof.
  intros W. unfold Timers.sendChunk, Timers.bind, Timers.lift. rewrite W.
  reflexivity.
Qed.

Lemma timed_sendChunk_Throw (data : option Buffer) (e : error) m :
  wire data = Throw e -> Timers.sendChunk data m = Timers.Dead (Timers.Of e) [].
Proof.
  intros W. unfold Timers.sendChunk, Timers.bind, Timers.lift. rewrite W.
  reflexivity.
Qed.

Lemma sendChunk_Ok (data : option Buffer) (text : string) (s : index_state) :
  wire data = Ok text ->
  sendChunk data s = Done tt s (map Write (String.list_ascii_of_string text)).
Proof.
  intros W. unfold sendChunk, bind, lift. rewrite W, tell_all_run. reflexivity.
Qed.

Lemma sendChunk_Throw (data : option Buffer) (e : error) (s : index_state) :
  wire data = Throw e -> sendChunk data s = Crash e [].
Proof.
  intros W. unfold sendChunk, bind, lift. rewrite W. reflexivity.
Qed.

(** A line and then a burst started with nothing waiting: the timed
    [sendChunk] and the one that writes at once keep pace. *)
Lemma sendChunk_keeps_pace (line : log_line) (data : option Buffer) m :
  Timers.timers m = [] ->
  is_response (Log line) = false ->
  keeps_pace []
    (Timers.after [Log line] (Timers.sendChunk data m))
    (after [Log line] (sendChunk data (Timers.index m))).
Proof.
  intros Idle NR. destruct (wire data) as [text|e] eqn:W.
  - rewrite (timed_sendChunk_Ok data text m W), (sendChunk_Ok data text _ W).
    unfold keeps_pace, tidy, Timers.pending.
    cbn [Timers.after after Timers.index Timers.timers Timers.base64 app map].
    rewrite Idle. cbn [app]. split; [reflexivity|]. split; [exact I|].
    unfold protocol. cbn [filter]. rewrite NR. cbn [negb app].
    fold (protocol (map Write (String.list_ascii_of_string text))).
    rewrite protocol_writes. reflexivity.
  - rewrite (timed_sendChunk_Throw data e m W), (sendChunk_Throw data e _ W).
    unfold keeps_pace. cbn [Timers.after after app map]. auto.
Qed.

Lemma emit_keeps_pace (chunks : list Buffer) (e : event) m :
  Timers.timers m = [] ->
  keeps_pace [] (Timers.emit chunks e m) (emit chunks e (Timers.index m)).
Proof.
  intros Idle. destruct e as [chunk| | |]; cbn [Timers.emit emit].
  - apply (sendChunk_keeps_pace SendingChunk0 chunk m Idle). reflexivity.
  - unfold Timers.sendNextChunk, sendNextChunk.
    unfold Timers.bind at 1. unfold bind at 1.
    unfold Timers.on_index, increase.
    destruct (idx (Timers.index m) >=? max (Timers.index m)).
    + cbn. auto.
    + cbv beta iota. rewrite timed_after_nil, after_nil.
      apply (sendChunk_keeps_pace
               (SendingChunk (idx (Timers.index m) + 1))
               (array_get chunks (idx (Timers.index m) + 1))
               {| Timers.index := {| idx := idx (Timers.index m) + 1;
                                     max := max (Timers.index m) |};
                  Timers.base64 := Timers.base64 m;
                  Timers.timers := Timers.timers m |});
        [exact Idle | reflexivity].
  - unfold Timers.repeatChunk, repeatChunk.
    unfold Timers.bind at 1. unfold bind at 1.
    unfold Timers.on_index, get.
    cbv beta iota. rewrite timed_after_nil, after_nil.
    apply (sendChunk_keeps_pace
             (RepeatingChunk (idx (Timers.index m)))
             (array_get chunks (idx (Timers.index m)))
             {| Timers.index := Timers.index m;
                Timers.base64 := Timers.base64 m;
                Timers.timers := Timers.timers m |});
      [exact Idle | reflexivity].
  - cbn. auto.
Qed.

Lemma on_data_keeps_pace (chunks : list Buffer) (data : jsstring) m :
  tidy m ->
  Timers.in_time (Timers.Line data) m = true ->
  keeps_pace (Timers.pending m) (Timers.on_data chunks data m)
             (on_data chunks data (Timers.index m)).
Proof.
  intros Tidy P. unfold Timers.in_time, Timers.acknowledges in P.
  unfold Timers.on_data, on_data. cbv zeta.
  destruct (jsstring_eqb (trim data) (lit "k")).
  - cbn [orb] in P. apply idle_timers in P.
    rewrite (proj1 (idle_pending m P)). apply emit_keeps_pace, P.
  - destruct (jsstring_eqb (trim data) (lit "f")).
    + cbn [orb] in P. apply idle_timers in P.
      rewrite (proj1 (idle_pending m P)). apply emit_keeps_pace, P.
    + unfold Timers.tell, tell, keeps_pace.
      split; [reflexivity|]. split; [exact Tidy|].
      cbn. apply app_nil_r.
Qed.

Lemma keeps_pace_compose (w w1 : list ascii) (out1 out1' : list action)
      (X : Timers.ending unit) (Y : outcome unit) :
  map Write w ++ protocol out1' = protocol out1 ++ map Write w1 ->
  keeps_pace w1 X Y ->
  keeps_pace w (Timers.after out1 X) (after out1' Y).
Proof.
  intros E K.
  destruct X as [[] m o|e o|c o], Y as [[] s o'|e' o'|c' o'];
    cbn [keeps_pace Timers.after after] in *; try contradiction.
  - destruct K as (I & Tidy & K). split; [exact I|]. split; [exact Tidy|].
    rewrite !protocol_app, app_assoc, E, <- !app_assoc, K. reflexivity.
  - destruct K as (I & K). split; [exact I|].
    rewrite !protocol_app, app_assoc, E, <- !app_assoc, K. reflexivity.
  - destruct K as (I & K). split; [exact I|].
    rewrite !protocol_app, app_assoc, E, <- !app_assoc, K. reflexivity.
Qed.

(** The simulation: under a patient schedule the machine with its timers
    does what the handlers with their bursts written at once do. *)
Lemma run_keeps_pace (chunks : list Buffer) (schedule : list Timers.tick) :
  forall m,
    tidy m ->
    Timers.patient chunks schedule m = true ->
    keeps_pace (Timers.pending m) (Timers.run chunks schedule m)
               (on_data_all chunks (Timers.lines_of schedule) (Timers.index m)).
Proof.
  induction schedule as [|t schedule IH]; intros m Tidy P.
  - cbn. split; [reflexivity|]. split; [exact Tidy|]. apply app_nil_r.
  - cbn [Timers.patient] in P. apply andb_prop in P. destruct P as [In P].
    destruct t as [data|k].
    + cbn [Timers.run Timers.step Timers.lines_of flat_map app on_data_all].
      fold (Timers.lines_of schedule).
      pose proof (on_data_keeps_pace chunks data m Tidy In) as K.
      cbn [Timers.step] in P. unfold Timers.bind, bind.
      destruct (Timers.on_data chunks data m) as [[] m1 o1|e o1|c o1],
               (on_data chunks data (Timers.index m)) as [[] s1 o1'|e' o1'|c' o1'];
        cbn [keeps_pace] in K; try contradiction; try exact K.
      destruct K as (Ei & Tidy1 & Eq). subst s1.
      apply (keeps_pace_compose _ (Timers.pending m1)); [exact Eq|].
      apply IH; assumption.
    + cbn [Timers.lines_of flat_map app]. fold (Timers.lines_of schedule).
      destruct (run_timer_tidy k m Tidy) as (m1 & o1 & E & Tidy1 & Ei & Eq & Pr).
      cbn [Timers.run Timers.step] in *.
      rewrite (timed_bind_Live _ _ _ _ _ _ E). rewrite E in P.
      rewrite <- Ei.
      rewrite <- (after_nil (on_data_all chunks (Timers.lines_of schedule)
                                         (Timers.index m1))).
      apply (keeps_pace_compose _ (Timers.pending m1)).
      * cbn [protocol filter]. rewrite app_nil_r, Pr. exact Eq.
      * apply IH; assumption.
Qed.

Lemma keeps_pace_agrees (t : Timers.ending unit) (w : outcome unit) :
  keeps_pace [] t w -> agrees (Some t) (Some w).
Proof.
  destruct t as [[] m o|e o|c o], w as [[] s o'|e' o'|c' o'];
    cbn [keeps_pace agrees map app]; try contradiction.
  - intros (I & _ & E). split; [exact I | symmetry; exact E].
  - intros (I & E). split; [exact I | symmetry; exact E].
  - intros (I & E). split; [exact I | symmetry; exact E].
Qed.

Lemma session_keeps_pace (payload : Buffer) (schedule : list Timers.tick) :
  Timers.stop_and_wait payload schedule = true ->
  agrees (Timers.session payload schedule)
         (session_lines payload (Timers.lines_of schedule)).
Proof.
  unfold Timers.stop_and_wait, Timers.session, session_lines, main_with.
  destruct (inGroupsOf payload 8) as [chunks|]; [|intros _; exact I].
  intros P. apply keeps_pace_agrees.
  pose proof (emit_keeps_pace chunks (START (array_get chunks 0))
                              (Timers.boot chunks) eq_refl) as K.
  change (Timers.index (Timers.boot chunks))
    with (indexManager (Z.of_nat (length chunks))) in K.
  unfold Timers.bind, bind.
  destruct (Timers.emit chunks (START (array_get chunks 0)) (Timers.boot chunks))
    as [[] m1 o1|e o1|c o1],
      (emit chunks (START (array_get chunks 0))
            (indexManager (Z.of_nat (length chunks))))
    as [[] s1 o1'|e' o1'|c' o1'];
    cbn [keeps_pace] in K; try contradiction; try exact K.
  destruct K as (Ei & Tidy1 & Eq). subst s1.
  apply (keeps_pace_compose _ (Timers.pending m1)); [exact Eq|].
  apply run_keeps_pace; assumption.
Qed.

Lemma session_lines_events (payload : Buffer) (lines : list jsstring) :
  option_map (map_trace protocol) (session_lines payload lines)
  = session payload (events_of lines).
Proof.
  unfold session_lines, session, main_with.
  destruct (inGroupsOf payload 8) as [chunks|]; [|reflexivity].
  cbn [option_map]. f_equal.
  apply bind_protocol; [apply emit_protocol | apply lines_as_events].
Qed.

(** The same against the session in terms of the events of the lines. *)
Lemma session_keeps_pace_events (payload : Buffer) (schedule : list Timers.tick) :
  Timers.stop_and_wait payload schedule = true ->
  agrees (Timers.session payload schedule)
         (session payload (events_of (Timers.lines_of schedule))).
Proof.
  intros P. pose proof (session_keeps_pace payload schedule P) as A.
  rewrite <- session_lines_events.
  destruct (Timers.session payload schedule) as [[[] m o|e o|c o]|],
           (session_lines payload (Timers.lines_of schedule))
    as [[[] s o'|e' o'|c' o']|];
    cbn [agrees option_map map_trace] in *; try contradiction;
    try exact I; rewrite protocol_idem; exact A.
Qed.

(* ================================================================== *)
(** * Sessions with their timers *)

Lemma emit_all_protocol (chunks : list Buffer) (events : list event) :
  forall s, map_trace protocol (emit_all chunks events s) = emit_all chunks events s.
Proof.
  induction events as [|e events IH]; intros s; [reflexivity|].
  cbn [emit_all]. apply bind_protocol; [apply emit_protocol | exact IH].
Qed.

Lemma session_protocol (payload : Buffer) (events : list event) :
  option_map (map_trace protocol) (session payload events)
  = session payload events.
Proof.
  unfold session, main_with.
  destruct (inGroupsOf payload 8) as [chunks|]; [|reflexivity].
  cbn [option_map]. f_equal.
  apply bind_protocol; [apply emit_protocol | apply emit_all_protocol].
Qed.

Lemma indices_sent_protocol (out : list action) :
  indices_sent (protocol out) = indices_sent out.
Proof.
  induction out as [|a out IH]; [reflexivity|].
  unfold protocol. cbn [filter].
  change (indices_sent (a :: out))
    with (match sent_index a with Some i => [i] | None => [] end
            ++ indices_sent out).
  destruct a as [[| | | | |r]| | |]; cbn [is_response negb];
    try (change (indices_sent (?b :: ?l))
          with (match sent_index b with Some i => [i] | None => [] end
                  ++ indices_sent l);
         f_equal; exact IH).
  all: try exact IH.
Qed.

Lemma written_protocol (out : list action) : written (protocol out) = written out.
Proof.
  induction out as [|a out IH]; [reflexivity|].
  unfold protocol. cbn [filter].
  change (written (a :: out))
    with (match a with Write c => [c] | _ => [] end ++ written out).
  destruct a as [[| | | | |r]| | |]; cbn [is_response negb];
    try (change (written (?b :: ?l))
          with (match b with Write c => [c] | _ => [] end ++ written l);
         f_equal; exact IH).
  all: try exact IH.
Qed.



Lemma events_of_ack (lines : list jsstring) : Forall ack (events_of lines).
Proof.
  induction lines as [|data lines IH]; [constructor|].
  cbn [events_of flat_map]. fold (events_of lines).
  destruct (jsstring_eqb (trim data) (lit "k"));
    [constructor; [left; reflexivity | exact IH]|].
  destruct (jsstring_eqb (trim data) (lit "f"));
    [constructor; [right; reflexivity | exact IH] | exact IH].
Qed.






(** A session answered by Success after Success, each in time. *)
Lemma timed_session_successes (payload : Buffer) (chunks : list Buffer)
      (schedule : list Timers.tick) :
  inGroupsOf payload 8 = Some chunks ->
  (1 <= length chunks)%nat ->
  Timers.stop_and_wait payload schedule = true ->
  events_of (Timers.lines_of schedule) = repeat CHUNK_SUCCESS (length chunks) ->
  exists out,
    Timers.session payload schedule = Some (Timers.Gone 0 out)
    /\ protocol out = sends_from 0 chunks ++ closing.
Proof.
  intros G L P Ev.
  pose proof (session_keeps_pace_events payload schedule P) as A.
  pose proof (session_protocol payload (repeat CHUNK_SUCCESS (length chunks))) as Pr.
  rewrite Ev, (session_successes payload chunks G L) in A.
  rewrite (session_successes payload chunks G L) in Pr.
  cbn [option_map map_trace] in Pr. injection Pr as Pr.
  destruct (Timers.session payload schedule) as [[[] m o|e o|c o]|];
    cbn [agrees] in A; try contradiction.
  destruct A as [-> A]. exists o. split; [reflexivity|].
  rewrite A. exact Pr.
Qed.


Lemma timed_trace_after {A} (out : list action) (o : Timers.ending A) :
  Timers.trace (Timers.after out o) = out ++ Timers.trace o.
Proof. destruct o; reflexivity. Qed.

Lemma session_trace_protocol (payload : Buffer) (events : list event)
      (w : outcome unit) :
  session payload events = Some w -> protocol (trace w) = trace w.
Proof.
  intros E. pose proof (session_protocol payload events) as P.
  rewrite E in P. cbn [option_map] in P. injection P as P.
  destruct w; cbn [map_trace trace] in *; injection P as P; exact P.
Qed.

Lemma agrees_trace (o : Timers.ending unit) (w : outcome unit) :
  agrees (Some o) (Some w) ->
  protocol (Timers.trace o) ++ map Write (unwritten o) = protocol (trace w).
Proof.
  destruct o as [[] m o|e o|c o], w as [[] s o'|e' o'|c' o'];
    cbn [agrees Timers.trace trace unwritten map]; try contradiction;
    intros [_ E]; rewrite ?app_nil_r; exact E.
Qed.

Lemma agrees_some (t : option (Timers.ending unit)) (w : outcome unit) :
  agrees t (Some w) -> exists o, t = Some o.
Proof.
  destruct t as [o|]; [eauto|]. cbn [agrees]. contradiction.
Qed.

(** A session with its timers under a patient schedule, in full. *)
Lemma timed_session_run (payload : Buffer) (chunks : list Buffer)
      (schedule : list Timers.tick) :
  inGroupsOf payload 8 = Some chunks ->
  payload <> [] ->
  Timers.stop_and_wait payload schedule = true ->
  exists c0 ts o,
    array_get chunks 0 = Some c0
    /\ follows chunks 0 ts
    /\ Timers.session payload schedule = Some o
    /\ protocol (Timers.trace o) ++ map Write (unwritten o)
       = transmission SendingChunk0 c0 ++ transmissions ts
         ++ (if successes (events_of (Timers.lines_of schedule))
                <? Z.of_nat (length chunks)
             then [] else closing).
Proof.
  intros G N P.
  destruct (proj1 (chunks_nonempty payload chunks G) N) as (c0 & rest & C).
  destruct (session_run payload chunks (events_of (Timers.lines_of schedule))
                        c0 rest G C (events_of_ack _)) as (ts & F & E).
  pose proof (session_keeps_pace_events payload schedule P) as A.
  rewrite E in A. destruct (agrees_some _ _ A) as [o O]. rewrite O in A.
  exists c0, ts, o. split; [rewrite C; reflexivity|]. split; [exact F|].
  split; [exact O|].
  rewrite (agrees_trace _ _ A), (session_trace_protocol _ _ _ E).
  destruct (Z.leb_spec (successes (events_of (Timers.lines_of schedule)))
                       (Z.of_nat (length chunks) - 1));
    destruct (Z.ltb_spec (successes (events_of (Timers.lines_of schedule)))
                         (Z.of_nat (length chunks)));
    try lia; cbn [trace]; rewrite ?app_nil_r; reflexivity.
Qed.


(** The handlers write nothing: writing is left to the callbacks. *)
Lemma timed_sendChunk_silent (data : option Buffer) m :
  written (Timers.trace (Timers.sendChunk data m)) = [].
Proof.
  destruct (wire data) as [text|e] eqn:W.
  - rewrite (timed_sendChunk_Ok data text m W). reflexivity.
  - rewrite (timed_sendChunk_Throw data e m W). reflexivity.
Qed.

Lemma timed_emit_silent (chunks : list Buffer) (e : event) m :
  written (Timers.trace (Timers.emit chunks e m)) = [].
Proof.
  destruct e as [chunk| | |]; cbn [Timers.emit].
  - unfold Timers.sendFirstChunk, Timers.bind, Timers.tell.
    rewrite timed_trace_after, written_app, timed_sendChunk_silent. reflexivity.
  - unfold Timers.sendNextChunk. unfold Timers.bind at 1.
    unfold Timers.on_index, increase.
    destruct (idx (Timers.index m) >=? max (Timers.index m)); cbv beta iota.
    + reflexivity.
    + unfold Timers.bind, Timers.tell.
      rewrite !timed_trace_after, !written_app, timed_sendChunk_silent.
      reflexivity.
  - unfold Timers.repeatChunk. unfold Timers.bind at 1.
    unfold Timers.on_index, get. cbv beta iota.
    unfold Timers.bind, Timers.tell.
    rewrite !timed_trace_after, !written_app, timed_sendChunk_silent.
    reflexivity.
  - reflexivity.
Qed.

Lemma timed_on_data_silent (chunks : list Buffer) (data : jsstring) m :
  written (Timers.trace (Timers.on_data chunks data m)) = [].
Proof.
  unfold Timers.on_data. cbv zeta.
  destruct (jsstring_eqb (trim data) (lit "k")); [apply timed_emit_silent|].
  destruct (jsstring_eqb (trim data) (lit "f")); [apply timed_emit_silent|].
  reflexivity.
Qed.

Lemma timed_bind_silent (c : Timers.T unit) (f : Timers.T unit) m :
  (forall m', written (Timers.trace (c m')) = []) ->
  (forall m', written (Timers.trace (f m')) = []) ->
  written (Timers.trace (Timers.bind c (fun _ => f) m)) = [].
Proof.
  intros Hc Hf. unfold Timers.bind. specialize (Hc m).
  destruct (c m) as [[] m1 o1|e o1|code o1]; cbn [Timers.trace] in Hc |- *;
    try exact Hc.
  rewrite timed_trace_after, written_app, Hc, Hf. reflexivity.
Qed.

Lemma timed_lines_silent (chunks : list Buffer) (lines : list jsstring) :
  forall m,
    written (Timers.trace (Timers.run chunks (map Timers.Line lines) m)) = [].
Proof.
  induction lines as [|data lines IH]; intros m; [reflexivity|].
  cbn [map Timers.run Timers.step].
  apply timed_bind_silent; [apply timed_on_data_silent | exact IH].
Qed.

(* ================================================================== *)
(** * The claims *)







(** C3, the claim as stated, at the empty payload: [inGroupsOf] gives no
    chunk, where the specification counts one. *)
Lemma chunk_count_counterexample :
  inGroupsOf (@nil byte) 8 = Some []
  /\ spec_count (Z.of_nat (length (@nil byte))) = 1
  /\ ~ spec_chunking [].
Proof.
  split; [reflexivity|]. split; [reflexivity|].
  intros (chunks & E & N). inversion E; subst chunks. discriminate N.
Qed.

(** C3, amended: a payload of [L >= 0] bytes is cut into exactly
    [ceil(L/8)] chunks, which is 0 when [L = 0]; every chunk is exactly 8
    bytes once padded and begins with the chunk as it was; the chunks put one
    after the other are the payload, and the payload is the first [L] bytes
    of the padded chunks put one after the other. *)
Theorem chunking (payload : Buffer) :
  exists chunks,
    inGroupsOf payload 8 = Some chunks
    /\ Z.of_nat (length chunks) = ceil_div (Z.of_nat (length payload)) 8
    /\ Forall (fun c => exists p,
                   appendPadding (Some c) = Ok p
                   /\ length p = 8%nat
                   /\ firstn (length c) p = c) chunks
    /\ concat chunks = payload
    /\ firstn (length payload) (concat (map padded chunks)) = payload.
Proof.
  destruct (inGroupsOf_spec (A := byte) 8 ltac:(lia) payload)
    as (chunks & E & C & W & N).
  exists chunks. split; [exact E|]. split; [exact N|]. split; [|split].
  - pose proof (chunks_short payload chunks E) as S.
    eapply Forall_impl; [|exact S]. intros c L. cbv beta in L.
    exists (padded c). split; [apply appendPadding_short, L|].
    split; [apply padded_length, L | apply padded_prefix].
  - exact C.
  - rewrite <- C. apply padded_chunks_prefix, W.
Qed.

(** C4: on a chunk of eight bytes, [checkSum] is the accumulator of the
    specification (start at 0; for every byte in order, shift left by one
    and add the byte's least significant bit), the byte [appendChecksum]
    appends is the low byte of that accumulator, and equal chunks have equal
    checksums. *)
Theorem checkSum_refines_spec (chunk : Buffer) :
  length chunk = 8%nat ->
  checkSum chunk = Int (spec_accumulator chunk)
  /\ appendChecksum chunk = chunk ++ [spec_checksum chunk]
  /\ forall chunk', chunk' = chunk -> checkSum chunk' = checkSum chunk.
Proof.
  intros L. destruct (checkSum_short chunk) as [E R]; [lia|].
  split; [exact E|]. split.
  - rewrite appendChecksum_full by exact L. rewrite E.
    rewrite fill_of_array_small by exact R.
    unfold spec_checksum. do 3 f_equal.
    change 255 with (Z.ones 8). rewrite Z.land_ones by lia.
    change (2 ^ 8) with 256. rewrite Z.mod_small; lia.
  - intros chunk' ->. reflexivity.
Qed.

Lemma checkSum_refines_spec_witness :
  let chunk := [x01; x02; x03; x04; x05; x06; x07; x08] in
  checkSum chunk = Int 170 /\ appendChecksum chunk = chunk ++ [xaa].
Proof.
  intros chunk.
  destruct (checkSum_refines_spec chunk eq_refl) as (E & F & _).
  split; [exact E | exact F].
Defined.

(** C5: a chunk of at most eight bytes is framed to nine bytes: zero bytes
    are added on the right up to eight bytes, which changes the chunk if and
    only if it is shorter than eight bytes; then one byte, the checksum of
    the padded chunk, is appended, and the first eight bytes of the block are
    the padded chunk. *)
Theorem framing (chunk : Buffer) :
  (length chunk <= 8)%nat ->
  exists p,
    appendPadding (Some chunk) = Ok p
    /\ p = chunk ++ repeat x00 (8 - length chunk)
    /\ length p = 8%nat
    /\ ((length chunk < 8)%nat <-> p <> chunk)
    /\ appendChecksum p = p ++ [fill_of_array (checkSum p)]
    /\ length (appendChecksum p) = 9%nat
    /\ firstn 8 (appendChecksum p) = p.
Proof.
  intros L. exists (padded chunk).
  pose proof (padded_length chunk L) as P.
  split; [apply appendPadding_short, L|]. split; [reflexivity|].
  split; [exact P|]. split; [|split; [|split]].
  - split.
    + intros Lt E. rewrite E in P. lia.
    + intros N. destruct (Nat.eq_dec (length chunk) 8) as [E|E]; [|lia].
      destruct N. apply padded_full, E.
  - apply appendChecksum_full, P.
  - rewrite appendChecksum_full by exact P. rewrite length_app, P. reflexivity.
  - rewrite appendChecksum_full by exact P.
    rewrite <- P at 1. rewrite firstn_app, Nat.sub_diag, firstn_all.
    apply app_nil_r.
Qed.

Lemma framing_witness :
  exists p,
    appendPadding (Some [x09; x0a]) = Ok p
    /\ p = [x09; x0a; x00; x00; x00; x00; x00; x00]
    /\ appendChecksum p = [x09; x0a; x00; x00; x00; x00; x00; x00; x80].
Proof.
  destruct (framing [x09; x0a]) as (p & E & -> & _ & _ & F & _).
  - simpl. lia.
  - exists ([x09; x0a] ++ repeat x00 (8 - length [x09; x0a])).
    split; [exact E|]. split; [reflexivity | exact F].
Defined.

(** C10: on a chunk of at most eight bytes [checkSum] is an integer from
    0 to 255; the byte stored for it stands for that very integer, and
    taking the low byte changes nothing. *)
Theorem checkSum_fits_byte (chunk : Buffer) :
  (length chunk <= 8)%nat ->
  exists z,
    checkSum chunk = Int z
    /\ 0 <= z <= 255
    /\ byte_val (fill_of_array (checkSum chunk)) = z
    /\ Z.land z 255 = z.
Proof.
  intros L. destruct (checkSum_short chunk L) as [E R].
  exists (spec_accumulator chunk).
  split; [exact E|]. split; [exact R|]. split.
  - rewrite E, fill_of_array_small by exact R. rewrite byte_val_of_Z.
    apply Z.mod_small. lia.
  - change 255 with (Z.ones 8). rewrite Z.land_ones by lia.
    change (2 ^ 8) with 256. apply Z.mod_small. lia.
Qed.

Lemma checkSum_fits_byte_witness :
  exists z,
    checkSum [xff; xff; xff; xff; xff; xff; xff; xff] = Int z /\ 0 <= z <= 255.
Proof.
  destruct (checkSum_fits_byte [xff; xff; xff; xff; xff; xff; xff; xff])
    as (z & E & R & _).
  - simpl. lia.
  - exists z. split; [exact E | exact R].
Defined.




(** C9, the claim as stated, at the empty payload: the index is created at
    0 for a count of 0, which is outside [0, count-1]. *)
Lemma index_range_counterexample :
  inGroupsOf (@nil byte) 8 = Some []
  /\ idx (indexManager (Z.of_nat (length (@nil Buffer)))) = 0
  /\ ~ spec_index_range (Z.of_nat (length (@nil Buffer)))
                          (indexManager (Z.of_nat (length (@nil Buffer)))).
Proof.
  split; [reflexivity|]. split; [reflexivity|].
  unfold spec_index_range. cbn. lia.
Qed.

(** C9, amended: when the payload gives [count >= 1] chunks, the index
    starts at 0 and, after any sequence of Success and Failure events that
    the session is still running after, lies in [0, count-1]; no later event
    makes it smaller; a Failure leaves it as it is; a Success adds exactly one
    to it when it is below [count-1], and ends the session when it is
    [count-1]. *)
Theorem index_invariant (payload : Buffer) (chunks : list Buffer) :
  inGroupsOf payload 8 = Some chunks ->
  (1 <= length chunks)%nat ->
  let count := Z.of_nat (length chunks) in
  (exists out, session payload [] = Some (Done tt (indexManager count) out))
  /\ idx (indexManager count) = 0
  /\ forall rs s out,
      Forall ack rs ->
      session payload rs = Some (Done tt s out) ->
      spec_index_range count s
      /\ (forall rs' s' out',
             Forall ack rs' ->
             session payload (rs ++ rs') = Some (Done tt s' out') ->
             idx s <= idx s')
      /\ (exists out', session payload (rs ++ [CHUNK_FAILURE])
                       = Some (Done tt s out'))
      /\ (idx s < count - 1 ->
          exists s' out',
            session payload (rs ++ [CHUNK_SUCCESS]) = Some (Done tt s' out')
            /\ idx s' = idx s + 1)
      /\ (idx s = count - 1 ->
          exists out',
            session payload (rs ++ [CHUNK_SUCCESS]) = Some (Exited 0 out')).
Proof.
  intros G L count.
  pose proof (chunks_short payload chunks G) as S.
  split; [|split; [reflexivity|]].
  - destruct (list_cases chunks) as [C | (c0 & rest & C)];
      [subst chunks; cbn [length] in L; lia|].
    rewrite (session_start payload chunks G [] c0 rest C).
    cbn [emit_all]. unfold ret. cbn [after]. eauto.
  - intros rs s out A E.
    destruct (session_in_flight payload chunks G rs s out A E)
      as (Hmax & R & pre & line & c & O & Get & I).
    split; [unfold spec_index_range; fold count in Hmax; lia|].
    split; [|split; [|split]].
    + intros rs' s' out' A' E'.
      rewrite (session_app payload chunks G rs rs' s out E) in E'.
      inversion E' as [E'']. apply after_Done_inv in E''.
      destruct E'' as (o' & E'' & _).
      refine (proj2 (emit_all_in_flight chunks S rs' A' s s' out o' _ E'')).
      unfold in_flight. eauto 10.
    + rewrite (session_app payload chunks G rs _ s out E).
      cbn [emit_all emit].
      rewrite (bind_Done _ _ _ tt s _ (repeatChunk_again chunks S s c Get)).
      unfold ret. cbn [after]. eauto.
    + intros Lt. fold count in Hmax.
      destruct (array_get_inside chunks (idx s + 1)) as [c' G']; [lia|].
      rewrite (session_app payload chunks G rs _ s out E).
      cbn [emit_all emit].
      rewrite (bind_Done _ _ _ tt _ _
                 (sendNextChunk_advance chunks S s c' ltac:(lia) G')).
      unfold ret. cbn [after]. eexists _, _. split; [reflexivity|].
      reflexivity.
    + intros Eq. fold count in Hmax.
      rewrite (session_app payload chunks G rs _ s out E).
      cbn [emit_all emit]. unfold bind.
      rewrite (sendNextChunk_end chunks s) by lia.
      cbn [after]. eauto.
Qed.

Lemma index_invariant_witness :
  let payload := [x01; x02; x03; x04; x05; x06; x07; x08; x09; x0a] in
  spec_index_range 2 {| idx := 1; max := 1 |}
  /\ exists out',
      session payload ([CHUNK_SUCCESS] ++ [CHUNK_SUCCESS]) = Some (Exited 0 out').
Proof.
  intros payload.
  destruct (index_invariant payload
              [[x01; x02; x03; x04; x05; x06; x07; x08]; [x09; x0a]])
    as (_ & _ & H).
  - reflexivity.
  - simpl. lia.
  - destruct (H [CHUNK_SUCCESS] {| idx := 1; max := 1 |}
                (transmission SendingChunk0 [x01; x02; x03; x04; x05; x06; x07; x08]
                 ++ transmission (SendingChunk 1) [x09; x0a]))
      as (R & _ & _ & _ & Last).
    + apply Forall_cons; [left; reflexivity | apply Forall_nil].
    + reflexivity.
    + split; [exact R | apply Last; reflexivity].
Defined.

(** C7: the listener on the parser trims the line, that is, takes the white
    space off both ends and nothing else; a line that is then exactly [k] is
    handled as the event Success, one that is exactly [f] as the event
    Failure; any other line is printed and changes neither the index nor
    anything on the connection. *)
Theorem classifier (chunks : list Buffer) (data : jsstring) (s : index_state) :
  (exists pre post, data = pre ++ trim data ++ post /\ blank pre /\ blank post)
  /\ (forall c rest, trim data = c :: rest -> is_space c = false)
  /\ (forall front c, trim data = front ++ [c] -> is_space c = false)
  /\ (trim data = lit "k" ->
      on_data chunks data s = emit chunks CHUNK_SUCCESS s)
  /\ (trim data = lit "f" ->
      on_data chunks data s = emit chunks CHUNK_FAILURE s)
  /\ (trim data <> lit "k" -> trim data <> lit "f" ->
      on_data chunks data s = Done tt s [Log (Response (trim data))])
  /\ (trim data = lit "k"
      <-> exists pre post, data = pre ++ lit "k" ++ post /\ blank pre /\ blank post)
  /\ (trim data = lit "f"
      <-> exists pre post, data = pre ++ lit "f" ++ post /\ blank pre /\ blank post).
Proof.
  split; [apply trim_split|]. split; [apply trim_first|].
  split; [intros front c; apply trim_last|]. unfold on_data. cbv zeta.
  split; [|split; [|split; [|split]]].
  - intros E. rewrite (proj2 (jsstring_eqb_eq _ _) E). reflexivity.
  - intros E. rewrite E.
    change (jsstring_eqb (lit "f") (lit "k")) with false.
    change (jsstring_eqb (lit "f") (lit "f")) with true. reflexivity.
  - intros Nk Nf.
    rewrite (proj2 (jsstring_eqb_neq _ _) Nk), (proj2 (jsstring_eqb_neq _ _) Nf).
    reflexivity.
  - apply (trim_one data 107%N). reflexivity.
  - apply (trim_one data 102%N). reflexivity.
Qed.

Lemma classifier_witness :
  let chunks := [[x01; x02; x03; x04; x05; x06; x07; x08]; [x09; x0a]] in
  let s := {| idx := 0; max := 1 |} in
  on_data chunks (lit " k" ++ [13%N]) s = emit chunks CHUNK_SUCCESS s
  /\ on_data chunks (lit "f ") s = emit chunks CHUNK_FAILURE s
  /\ on_data chunks (lit "ok") s = Done tt s [Log (Response (lit "ok"))].
Proof.
  intros chunks s. split; [|split].
  - destruct (classifier chunks (lit " k" ++ [13%N]) s)
      as (_ & _ & _ & K & _).
    apply K. reflexivity.
  - destruct (classifier chunks (lit "f ") s) as (_ & _ & _ & _ & F & _).
    apply F. reflexivity.
  - destruct (classifier chunks (lit "ok") s) as (_ & _ & _ & _ & _ & U & _).
    apply U; discriminate.
Defined.

(** C8: what [sendChunk] writes for a chunk is the base64 text of its framed
    block of nine bytes; for every block of nine bytes that text has twelve
    characters, each a letter of the base64 alphabet and a printable byte;
    equal blocks give equal texts; the standard decoder gives the block
    back, so that different blocks give different texts. *)
Theorem encoder_reversible :
  (forall (chunk : Buffer) (s : index_state),
      (length chunk <= 8)%nat ->
      let block := appendChecksum (padded chunk) in
      length block = 9%nat
      /\ sendChunk (Some chunk) s
         = Done tt s (map Write (String.list_ascii_of_string (base64_encode block))))
  /\ (forall block : Buffer,
        length block = 9%nat ->
        let text := base64_encode block in
        String.length text = 12%nat
        /\ Forall (fun c => base64_letter c /\ printable c)
                  (String.list_ascii_of_string text)
        /\ base64_decode text = Some block
        /\ (forall block', block' = block -> base64_encode block' = text)
        /\ (forall block', base64_encode block' = text -> block' = block)).
Proof.
  split.
  - intros chunk s L block. subst block. split.
    + rewrite appendChecksum_full by (apply padded_length, L).
      rewrite length_app, padded_length by exact L. reflexivity.
    + apply sendChunk_short, L.
  - intros block L text. subst text.
    destruct (base64_encode_block block L) as [Len Letters].
    split; [exact Len|]. split; [exact Letters|].
    split; [apply base64_decode_encode|]. split.
    + intros block' ->. reflexivity.
    + intros block' E. apply (f_equal base64_decode) in E.
      rewrite !base64_decode_encode in E. inversion E. reflexivity.
Qed.

Lemma encoder_reversible_witness :
  let block := [x01; x02; x03; x04; x05; x06; x07; x08; xaa] in
  base64_encode block = "AQIDBAUGBwiq"%string
  /\ base64_decode (base64_encode block) = Some block
  /\ length (appendChecksum (padded [x09; x0a])) = 9%nat.
Proof.
  intros block. destruct encoder_reversible as [Frame Text].
  destruct (Text block eq_refl) as (_ & _ & D & _).
  destruct (Frame [x09; x0a] (indexManager 1)) as [L _]; [simpl; lia|].
  split; [reflexivity|]. split; [exact D | exact L].
Defined.

(* ================================================================== *)
(** * Further properties of the framer *)

(** X1: [appendPadding] accepts a buffer exactly when it holds at most eight
    bytes; a longer one makes [Buffer.alloc] refuse the negative size, and
    [sendChunk] then throws before anything is written.  Padding what is
    already padded changes nothing. *)
Theorem appendPadding_bounds (chunk : Buffer) (s : index_state) :
  ((exists p, appendPadding (Some chunk) = Ok p) <-> (length chunk <= 8)%nat)
  /\ ((8 < length chunk)%nat ->
      appendPadding (Some chunk) = Throw RangeError
      /\ sendChunk (Some chunk) s = Crash RangeError [])
  /\ ((length chunk <= 8)%nat ->
      appendPadding (Some (padded chunk)) = Ok (padded chunk)).
Proof.
  assert (Long : (8 < length chunk)%nat ->
                 appendPadding (Some chunk) = Throw RangeError).
  { intros L. unfold appendPadding.
    destruct (Nat.eqb_spec (length chunk) 8) as [E|_]; [lia|].
    unfold Buffer_alloc.
    destruct (Z.ltb_spec (8 - Z.of_nat (length chunk)) 0); [reflexivity | lia]. }
  split; [split|split].
  - intros [p E]. destruct (Nat.le_gt_cases (length chunk) 8) as [L|L];
      [exact L|]. rewrite (Long L) in E. discriminate E.
  - intros L. exists (padded chunk). apply appendPadding_short, L.
  - intros L. split; [apply Long, L|].
    unfold sendChunk, bind, lift, wire. rewrite (Long L). reflexivity.
  - intros L. rewrite appendPadding_short by (rewrite padded_length; lia).
    rewrite padded_full by (apply padded_length, L). reflexivity.
Qed.

Lemma appendPadding_bounds_witness :
  appendPadding (Some (repeat xff 9)) = Throw RangeError
  /\ appendPadding (Some (padded [x01])) = Ok (padded [x01]).
Proof.
  destruct (appendPadding_bounds (repeat xff 9) (indexManager 1))
    as (_ & Long & _).
  destruct (appendPadding_bounds [x01] (indexManager 1)) as (_ & _ & Again).
  split; [apply Long; simpl; lia | apply Again; simpl; lia].
Defined.

(** X2: [appendChecksum] gives nine bytes whatever it is handed.  A buffer
    shorter than eight bytes gets its checksum right behind it and zero
    bytes after that; of a buffer of nine bytes or more only the first nine
    are kept and the checksum is cut off. *)
Theorem appendChecksum_any (buf : Buffer) :
  length (appendChecksum buf) = 9%nat
  /\ ((length buf <= 8)%nat ->
      appendChecksum buf
      = buf ++ [fill_of_array (checkSum buf)] ++ repeat x00 (8 - length buf))
  /\ ((9 <= length buf)%nat -> appendChecksum buf = firstn 9 buf).
Proof.
  split; [apply Buffer_concat_length|]. split.
  - intros L. unfold appendChecksum, Buffer_concat. cbv zeta.
    cbn [concat repeat]. rewrite app_nil_r.
    rewrite firstn_all2 by (rewrite length_app; cbn [length]; lia).
    rewrite length_app. cbn [length]. rewrite <- app_assoc. do 3 f_equal. lia.
  - intros L. unfold appendChecksum, Buffer_concat. cbv zeta.
    cbn [concat repeat]. rewrite app_nil_r, length_app.
    replace (9 - (length buf + length [fill_of_array (checkSum buf)]))%nat
      with 0%nat by (cbn [length]; lia).
    cbn [repeat]. rewrite app_nil_r, firstn_app.
    replace (9 - length buf)%nat with 0%nat by lia.
    cbn [firstn]. apply app_nil_r.
Qed.

Lemma appendChecksum_any_witness :
  appendChecksum [x01; x02] = [x01; x02; x02; x00; x00; x00; x00; x00; x00]
  /\ appendChecksum (repeat xff 10) = repeat xff 9.
Proof.
  destruct (appendChecksum_any [x01; x02]) as (_ & Short & _).
  destruct (appendChecksum_any (repeat xff 10)) as (_ & _ & Long).
  split; [apply Short; simpl; lia | apply Long; simpl; lia].
Defined.

(** X3: [checkSum] sees nothing of a byte but its least significant bit:
    buffers of any length whose bytes have the same parities have the same
    checksum, so a change in the upper seven bits of a byte goes unnoticed. *)
Theorem checkSum_blind (d1 d2 : Buffer) :
  parities d1 = parities d2 -> checkSum d1 = checkSum d2.
Proof.
  intros E. apply checkSum_parities, E.
Qed.

Lemma checkSum_blind_witness :
  checkSum [x01; x02; x03] = checkSum [xff; x80; x81].
Proof.
  apply checkSum_blind. reflexivity.
Defined.

(** X4: on buffers of one length of at most eight bytes the checksum byte
    tells the parities apart: two such buffers get the same checksum byte if
    and only if their bytes have the same parities.  A flip of the least
    significant bit of any byte is therefore always noticed. *)
Theorem checkSum_parity_exact (d1 d2 : Buffer) :
  length d1 = length d2 ->
  (length d1 <= 8)%nat ->
  (fill_of_array (checkSum d1) = fill_of_array (checkSum d2)
   <-> parities d1 = parities d2).
Proof.
  intros L S. split.
  - destruct (checkSum_short d1) as [E1 R1]; [lia|].
    destruct (checkSum_short d2) as [E2 R2]; [lia|].
    rewrite E1, E2, !fill_of_array_small by assumption. intros E.
    apply (f_equal byte_val) in E. rewrite !byte_val_of_Z in E.
    rewrite !Z.mod_small in E by lia.
    apply spec_accumulator_parities; assumption.
  - intros E. unfold checkSum.
    rewrite (checkSum_parities d1 d2 (Int 0) E). reflexivity.
Qed.

Lemma checkSum_parity_exact_witness :
  fill_of_array (checkSum [x01; x02]) <> fill_of_array (checkSum [x01; x03]).
Proof.
  intros E.
  apply (checkSum_parity_exact [x01; x02] [x01; x03]) in E.
  - discriminate E.
  - reflexivity.
  - simpl. lia.
Defined.

(** X5: whatever the length of the buffer, [checkSum] returns an integer,
    never [NaN], between -2^31 and 2^31, that agrees with the unbounded
    accumulator of the specification modulo 2^32; up to thirty bytes it is
    that accumulator itself, so that the 32 bit shift has lost nothing. *)
Theorem checkSum_low_byte (data : Buffer) :
  (exists z,
      checkSum data = Int z
      /\ - 2 ^ 31 <= z <= 2 ^ 31
      /\ z mod 2 ^ 32 = spec_accumulator data mod 2 ^ 32)
  /\ ((length data <= 30)%nat ->
      checkSum data = Int (spec_accumulator data)
      /\ 0 <= spec_accumulator data < 2 ^ Z.of_nat (length data)).
Proof.
  split.
  - destruct (checkSum_fold_mod data 0 0) as (z & E & M & R);
      [reflexivity | lia |].
    exists z. split; [exact E|]. split; [exact R | exact M].
  - intros L. apply (checkSum_fold data 0 0); lia.
Qed.

Lemma checkSum_low_byte_witness :
  checkSum (repeat xff 9) = Int 511.
Proof.
  destruct (checkSum_low_byte (repeat xff 9)) as [_ Exact].
  destruct Exact as [E _]; [simpl; lia|]. exact E.
Defined.

(** X6: the zero bytes of the padding only shift the accumulator: the
    checksum of a padded chunk is the accumulator of the chunk itself times
    two to the number of bytes added. *)
Theorem checkSum_padded (chunk : Buffer) :
  (length chunk <= 8)%nat ->
  checkSum (padded chunk)
  = Int (spec_accumulator chunk * 2 ^ Z.of_nat (8 - length chunk)).
Proof.
  intros L.
  destruct (checkSum_short (padded chunk)) as [E _];
    [rewrite padded_length; lia|].
  rewrite E. unfold spec_accumulator, padded.
  rewrite fold_left_app, spec_accumulator_zeros. reflexivity.
Qed.

Lemma checkSum_padded_witness :
  checkSum (padded [x09; x0a]) = Int 128.
Proof.
  apply (checkSum_padded [x09; x0a]). simpl. lia.
Defined.

(* ================================================================== *)
(** * Further properties of [inGroupsOf] *)

(** X7: for arrays of any elements and any group size of at least one,
    [inGroupsOf] returns; the groups put one after the other are the array;
    every group but the last holds [size] elements and the last holds from
    one to [size]; there are [ceil(length / size)] groups. *)
Theorem inGroupsOf_sound {A : Type} (ary : list A) (size : nat) :
  (0 < size)%nat ->
  exists groups,
    inGroupsOf ary size = Some groups
    /\ concat groups = ary
    /\ well_chunked size groups
    /\ Forall (fun g => (1 <= length g <= size)%nat) groups
    /\ Z.of_nat (length groups)
       = ceil_div (Z.of_nat (length ary)) (Z.of_nat size).
Proof.
  intros P. destruct (inGroupsOf_spec size P ary) as (groups & E & C & W & N).
  exists groups. split; [exact E|]. split; [exact C|]. split; [exact W|].
  split; [apply (well_chunked_bounds size P), W | exact N].
Qed.

Lemma inGroupsOf_sound_witness :
  inGroupsOf [1; 2; 3; 4; 5; 6; 7] 3 = Some [[1; 2; 3]; [4; 5; 6]; [7]].
Proof.
  destruct (inGroupsOf_sound [1; 2; 3; 4; 5; 6; 7] 3) as (groups & E & _);
    [lia|].
  rewrite E. f_equal. vm_compute in E. injection E as <-. reflexivity.
Defined.

(** X8: group number [k] of [inGroupsOf(ary, size)] is
    [ary.slice(k * size, k * size + size)]. *)
Theorem inGroupsOf_nth {A : Type} (ary : list A) (size k : nat)
        (groups : list (list A)) :
  (0 < size)%nat ->
  inGroupsOf ary size = Some groups ->
  (k < length groups)%nat ->
  nth_error groups k = Some (slice ary (k * size) (k * size + size)).
Proof.
  intros P G L.
  destruct (inGroupsOf_spec size P ary) as (groups' & E & C & W & _).
  rewrite G in E. injection E as <-.
  destruct (nth_error groups k) as [g|] eqn:N;
    [|apply nth_error_None in N; lia].
  rewrite (well_chunked_nth size groups ary k g W C N).
  unfold slice. do 2 f_equal. lia.
Qed.

Lemma inGroupsOf_nth_witness :
  nth_error [[1; 2; 3]; [4; 5; 6]; [7]] 2 = Some (slice [1; 2; 3; 4; 5; 6; 7] 6 9).
Proof.
  apply (inGroupsOf_nth [1; 2; 3; 4; 5; 6; 7] 3 2); [lia | reflexivity |].
  simpl. lia.
Defined.

(** X9: with a group size of 0 the loop of [inGroupsOf] makes no progress:
    on an array that is not empty no number of turns brings it to its end.
    An empty array gives no group, whatever the size. *)
Theorem inGroupsOf_size_0 {A : Type} (ary : list A) :
  (ary <> [] ->
   forall (fuel : nat) (result : list (list A)),
     inGroupsOf_loop fuel ary 0 0 result = None)
  /\ (forall size, inGroupsOf (@nil A) size = Some []).
Proof.
  split.
  - intros N fuel result. apply inGroupsOf_loop_stuck.
    destruct ary; [congruence | cbn [length]; lia].
  - intros size. reflexivity.
Qed.

Lemma inGroupsOf_size_0_witness :
  inGroupsOf_loop 1000 [x01] 0 0 [] = None.
Proof.
  destruct (inGroupsOf_size_0 [x01]) as [Stuck _].
  apply Stuck. discriminate.
Defined.

(* ================================================================== *)
(** * Further properties of the index and the handlers *)

(** X10: after [n] calls of [increase] on a fresh [indexManager(m)] the
    index is [n], held back at [m - 1] and never below 0; [get] reports it
    and changes nothing; the next [increase] answers [null] exactly when
    [m - 1 <= n]. *)
Theorem increase_n (m : Z) (n : nat) :
  let i := Z.max 0 (Z.min (Z.of_nat n) (m - 1)) in
  times n increase (indexManager m) = Done tt {| idx := i; max := m - 1 |} []
  /\ (times n increase ;;; get) (indexManager m)
     = Done (Some i) {| idx := i; max := m - 1 |} []
  /\ (times n increase ;;; increase) (indexManager m)
     = Done (if m - 1 <=? Z.of_nat n then None else Some (i + 1))
            {| idx := Z.max 0 (Z.min (Z.of_nat n + 1) (m - 1)); max := m - 1 |}
            [].
Proof.
  intros i. subst i.
  assert (E : times n increase (indexManager m)
              = Done tt {| idx := Z.max 0 (Z.min (Z.of_nat n) (m - 1));
                           max := m - 1 |} []).
  { rewrite times_increase. cbn [indexManager idx max]. reflexivity. }
  split; [exact E|]. split.
  - rewrite (bind_Done _ _ _ tt _ _ E). reflexivity.
  - rewrite (bind_Done _ _ _ tt _ _ E). unfold increase. cbn [idx max].
    destruct (Z.geb_spec (Z.max 0 (Z.min (Z.of_nat n) (m - 1))) (m - 1));
      destruct (Z.leb_spec (m - 1) (Z.of_nat n)); try lia; cbn [after app].
    + f_equal. f_equal. lia.
    + f_equal. f_equal. lia.
Qed.

(** X11: a Failure never ends the session and never moves the index,
    whatever the chunks and the index are: [repeatChunk] either transmits
    under the unchanged index or throws right after its line; the branch
    that emits [EOF] is never taken. *)
Theorem failure_never_ends (chunks : list Buffer) (s : index_state) :
  (exists text,
      emit chunks CHUNK_FAILURE s
      = Done tt s (Log (RepeatingChunk (idx s)) :: map Write text))
  \/ (exists e,
         emit chunks CHUNK_FAILURE s
         = Crash e [Log (RepeatingChunk (idx s))]).
Proof.
  cbn [emit]. unfold repeatChunk, bind, get, tell. cbn [after app].
  destruct (sendChunk_cases (array_get chunks (idx s)) s)
    as [[e E] | [text E]]; rewrite E; cbn [after app]; eauto.
Qed.

(* ================================================================== *)
(** * Further properties of sessions *)

(** X12: in a session on a payload that is not empty, answered by any
    sequence of Success and Failure events, the index is the number of
    Success events so far as long as that number is below the number of
    chunks, and the session has ended with status 0 once it is not;
    Failure events count for nothing and no such session throws. *)
Theorem session_progress (payload : Buffer) (chunks : list Buffer)
        (rs : list event) :
  inGroupsOf payload 8 = Some chunks ->
  payload <> [] ->
  Forall ack rs ->
  let count := Z.of_nat (length chunks) in
  (successes rs < count ->
   exists out,
     session payload rs
     = Some (Done tt {| idx := successes rs; max := count - 1 |} out))
  /\ (count <= successes rs ->
      exists out, session payload rs = Some (Exited 0 out)).
Proof.
  intros G N A count.
  destruct (proj1 (chunks_nonempty payload chunks G) N) as (c0 & rest & C).
  destruct (session_run payload chunks rs c0 rest G C A) as (ts & _ & E).
  fold count in E. split; intros H.
  - destruct (Z.leb_spec (successes rs) (count - 1)); [eauto | lia].
  - destruct (Z.leb_spec (successes rs) (count - 1)); [lia | eauto].
Qed.

Lemma session_progress_witness :
  let payload := [x01; x02; x03; x04; x05; x06; x07; x08; x09; x0a] in
  (exists out,
      session payload [CHUNK_FAILURE; CHUNK_SUCCESS; CHUNK_FAILURE]
      = Some (Done tt {| idx := 1; max := 1 |} out))
  /\ (exists out,
         session payload [CHUNK_SUCCESS; CHUNK_FAILURE; CHUNK_SUCCESS]
         = Some (Exited 0 out)).
Proof.
  intros payload.
  assert (A1 : Forall ack [CHUNK_FAILURE; CHUNK_SUCCESS; CHUNK_FAILURE]).
  { apply Forall_cons; [right; reflexivity|].
    apply Forall_cons; [left; reflexivity|].
    apply Forall_cons; [right; reflexivity | apply Forall_nil]. }
  assert (A2 : Forall ack [CHUNK_SUCCESS; CHUNK_FAILURE; CHUNK_SUCCESS]).
  { apply Forall_cons; [left; reflexivity|].
    apply Forall_cons; [right; reflexivity|].
    apply Forall_cons; [left; reflexivity | apply Forall_nil]. }
  split.
  - apply (session_progress payload
             [[x01; x02; x03; x04; x05; x06; x07; x08]; [x09; x0a]]
             [CHUNK_FAILURE; CHUNK_SUCCESS; CHUNK_FAILURE]);
      [reflexivity | discriminate | exact A1 | reflexivity].
  - apply (session_progress payload
             [[x01; x02; x03; x04; x05; x06; x07; x08]; [x09; x0a]]
             [CHUNK_SUCCESS; CHUNK_FAILURE; CHUNK_SUCCESS]);
      [reflexivity | discriminate | exact A2
      | vm_compute; intros H; discriminate H].
Defined.

(** X13: in a session on a payload that is not empty, under every schedule
    in which each acknowledgement is handled when no callback waits any
    more, what the session does, with the ['Response: '] lines taken out and
    the characters that still wait counted in, is the transmission of chunk
    0 followed by transmissions each of which announces the index of the one
    before or the next index and sends the chunk stored at the index it
    announces, followed by the end exactly when the Success events have
    reached the number of chunks.  The indices announced start at 0 and
    never skip a chunk nor go back. *)
Theorem session_shape (payload : Buffer) (chunks : list Buffer)
        (schedule : list Timers.tick) :
  inGroupsOf payload 8 = Some chunks ->
  payload <> [] ->
  Timers.stop_and_wait payload schedule = true ->
  exists c0 ts o,
    array_get chunks 0 = Some c0
    /\ follows chunks 0 ts
    /\ Timers.session payload schedule = Some o
    /\ protocol (Timers.trace o) ++ map Write (unwritten o)
       = transmission SendingChunk0 c0 ++ transmissions ts
         ++ (if successes (events_of (Timers.lines_of schedule))
                <? Z.of_nat (length chunks)
             then [] else closing)
    /\ indices_sent (Timers.trace o) = 0 :: indices_sent (transmissions ts)
    /\ gentle (indices_sent (Timers.trace o)).
Proof.
  intros G N P.
  destruct (timed_session_run payload chunks schedule G N P)
    as (c0 & ts & o & G0 & F & O & Sh).
  exists c0, ts, o.
  split; [exact G0|]. split; [exact F|]. split; [exact O|]. split; [exact Sh|].
  assert (I : indices_sent (Timers.trace o)
              = 0 :: indices_sent (transmissions ts)).
  { rewrite <- indices_sent_protocol.
    rewrite <- (app_nil_r (indices_sent (protocol (Timers.trace o)))).
    rewrite <- (indices_sent_writes (unwritten o)), <- indices_sent_app, Sh.
    rewrite !indices_sent_app.
    rewrite (indices_sent_transmission SendingChunk0 c0 0) by reflexivity.
    destruct (successes (events_of (Timers.lines_of schedule))
                <? Z.of_nat (length chunks)); cbn [app];
      rewrite app_nil_r; reflexivity. }
  split; [exact I|]. rewrite I. apply (follows_gentle chunks), F.
Qed.

Lemma session_shape_witness :
  let payload := [x01; x02; x03; x04; x05; x06; x07; x08; x09; x0a] in
  let schedule :=
    Timers.burst ++ Timers.Line (lit "f") :: Timers.burst
      ++ [Timers.Line (lit "k"); Timers.Fire 0; Timers.Fire 0] in
  exists o,
    Timers.session payload schedule = Some o
    /\ indices_sent (Timers.trace o) = [0; 0; 1]
    /\ gentle (indices_sent (Timers.trace o)).
Proof.
  intros payload schedule.
  destruct (session_shape payload
              [[x01; x02; x03; x04; x05; x06; x07; x08]; [x09; x0a]] schedule)
    as (c0 & ts & o & _ & _ & O & _ & _ & Gt).
  - reflexivity.
  - discriminate.
  - reflexivity.
  - exists o. split; [exact O|]. split; [|exact Gt].
    vm_compute in O. injection O as <-. reflexivity.
Defined.

(** X14: such a session closes the connection and leaves the process only
    once the Success events have reached the number of chunks, and then at
    the very end of what it does: before that nothing is closed, and after
    [connection.close()] nothing is written. *)
Theorem close_at_the_end (payload : Buffer) (chunks : list Buffer)
        (rs : list event) :
  inGroupsOf payload 8 = Some chunks ->
  payload <> [] ->
  Forall ack rs ->
  exists front,
    Forall keeps_open front
    /\ option_map trace (session payload rs)
       = Some (front ++ (if successes rs <? Z.of_nat (length chunks)
                         then [] else closing)).
Proof.
  intros G N A.
  destruct (proj1 (chunks_nonempty payload chunks G) N) as (c0 & rest & C).
  destruct (session_run payload chunks rs c0 rest G C A) as (ts & _ & E).
  exists (transmission SendingChunk0 c0 ++ transmissions ts). split.
  - apply Forall_app. split;
      [apply keeps_open_transmission | apply keeps_open_transmissions].
  - rewrite E.
    destruct (Z.leb_spec (successes rs) (Z.of_nat (length chunks) - 1));
      destruct (Z.ltb_spec (successes rs) (Z.of_nat (length chunks)));
      try lia; cbn [option_map trace]; rewrite ?app_nil_r, <- ?app_assoc;
      reflexivity.
Qed.

Lemma close_at_the_end_witness :
  let payload := [x01; x02; x03; x04; x05; x06; x07; x08; x09; x0a] in
  exists front,
    Forall keeps_open front
    /\ option_map trace (session payload [CHUNK_SUCCESS; CHUNK_SUCCESS])
       = Some (front ++ closing).
Proof.
  intros payload.
  destruct (close_at_the_end payload
              [[x01; x02; x03; x04; x05; x06; x07; x08]; [x09; x0a]]
              [CHUNK_SUCCESS; CHUNK_SUCCESS])
    as (front & K & O).
  - reflexivity.
  - discriminate.
  - apply Forall_cons; [left; reflexivity|].
    apply Forall_cons; [left; reflexivity | apply Forall_nil].
  - exists front. split; [exact K | exact O].
Defined.

(** X15: on the wire every transmission is one burst of exactly twelve
    characters: in such a session, under every schedule in which each
    acknowledgement is handled when no callback waits any more, the
    characters written and those that still wait are together twelve times
    the transmissions announced. *)
Theorem twelve_per_transmission (payload : Buffer) (chunks : list Buffer)
        (schedule : list Timers.tick) :
  inGroupsOf payload 8 = Some chunks ->
  payload <> [] ->
  Timers.stop_and_wait payload schedule = true ->
  exists o,
    Timers.session payload schedule = Some o
    /\ (length (written (Timers.trace o)) + length (unwritten o)
        = 12 * length (indices_sent (Timers.trace o)))%nat.
Proof.
  intros G N P.
  pose proof (chunks_short payload chunks G) as S.
  destruct (timed_session_run payload chunks schedule G N P)
    as (c0 & ts & o & G0 & F & O & Sh).
  destruct (follows_counts chunks S ts 0 F) as [I W].
  assert (L0 : (length c0 <= 8)%nat).
  { change (array_get chunks 0) with (array_get chunks (Z.of_nat 0)) in G0.
    rewrite array_get_nat in G0. apply nth_error_In in G0.
    rewrite Forall_forall in S. apply S, G0. }
  exists o. split; [exact O|].
  apply (f_equal written) in Sh as Wr. apply (f_equal indices_sent) in Sh as Ix.
  rewrite written_app, written_protocol, written_writes in Wr.
  rewrite indices_sent_app, indices_sent_protocol, indices_sent_writes,
    app_nil_r in Ix.
  rewrite <- length_app, Wr, Ix.
  rewrite !written_app, !indices_sent_app, !length_app.
  rewrite written_transmission, wire_text_length by exact L0.
  rewrite (indices_sent_transmission SendingChunk0 c0 0) by reflexivity.
  rewrite W, I.
  destruct (successes (events_of (Timers.lines_of schedule))
              <? Z.of_nat (length chunks));
    cbn [length closing written indices_sent flat_map app sent_index]; lia.
Qed.

Lemma twelve_per_transmission_witness :
  let payload := [x01; x02; x03; x04; x05; x06; x07; x08; x09; x0a] in
  let schedule :=
    Timers.burst ++ Timers.Line (lit "f") :: repeat (Timers.Fire 0) 5 in
  exists o,
    Timers.session payload schedule = Some o
    /\ (length (written (Timers.trace o)) + length (unwritten o)
        = 12 * length (indices_sent (Timers.trace o)))%nat.
Proof.
  intros payload schedule.
  apply (twelve_per_transmission payload
           [[x01; x02; x03; x04; x05; x06; x07; x08]; [x09; x0a]] schedule).
  - reflexivity.
  - discriminate.
  - reflexivity.
Defined.

(** X16: a session throws exactly when the file is empty: then [chunks[0]]
    is [undefined], and the start throws a TypeError right after its first
    line, before anything is written and whatever the peer answers; on a
    file that is not empty no sequence of Success and Failure events makes
    the session throw. *)
Theorem empty_file_throws (payload : Buffer) (rs : list event) :
  (payload = [] ->
   session payload rs = Some (Crash TypeError [Log SendingChunk0]))
  /\ (Forall ack rs ->
      (exists e out, session payload rs = Some (Crash e out)) ->
      payload = []).
Proof.
  split.
  - intros ->. apply (session_empty [] []); reflexivity.
  - intros A (e & out & E).
    destruct (list_cases payload) as [P | (b & tl & P)]; [exact P|].
    destruct (inGroupsOf_spec (A := byte) 8 ltac:(lia) payload)
      as (chunks & G & _).
    assert (N : payload <> []) by (rewrite P; discriminate).
    destruct (proj1 (chunks_nonempty payload chunks G) N) as (c0 & rest & C).
    destruct (session_run payload chunks rs c0 rest G C A) as (ts & _ & R).
    rewrite R in E. clear R. revert E.
    destruct (successes rs <=? _); intros E; discriminate E.
Qed.

Lemma empty_file_throws_witness :
  session [] [CHUNK_FAILURE; CHUNK_SUCCESS]
  = Some (Crash TypeError [Log SendingChunk0]).
Proof.
  destruct (empty_file_throws [] [CHUNK_FAILURE; CHUNK_SUCCESS]) as [E _].
  apply E. reflexivity.
Defined.

(** X17: lines of the peer that are neither [k] nor [f] change nothing of
    what the session does but for the ['Response: '] lines it prints: with
    those lines taken out, a session fed lines is the session fed the events
    of the lines that are acknowledgements, in outcome, index and actions. *)
Theorem noise_lines (payload : Buffer) (lines : list jsstring) :
  option_map (map_trace protocol) (session_lines payload lines)
  = session payload (events_of lines).
Proof.
  unfold session_lines, session, main_with.
  destruct (inGroupsOf payload 8) as [chunks|]; [|reflexivity].
  cbn [option_map]. f_equal.
  apply bind_protocol; [apply emit_protocol | apply lines_as_events].
Qed.

(** X18: in a session in which every chunk is acknowledged at once, under
    every schedule in which each acknowledgement is handled when no callback
    waits any more, the characters written, read as one text, are the base64
    text of the framed blocks put one after the other: the standard decoder
    gives back the blocks, nine bytes each, and the first eight bytes of
    every block, put one after the other and cut to the length of the
    payload, are the payload. *)
Theorem stream_round_trip (payload : Buffer) (chunks : list Buffer)
        (schedule : list Timers.tick) :
  inGroupsOf payload 8 = Some chunks ->
  (1 <= length chunks)%nat ->
  Timers.stop_and_wait payload schedule = true ->
  events_of (Timers.lines_of schedule) = repeat CHUNK_SUCCESS (length chunks) ->
  exists out,
    Timers.session payload schedule = Some (Timers.Gone 0 out)
    /\ base64_decode (String.string_of_list_ascii (written out))
       = Some (concat (map framed chunks))
    /\ Forall (fun block => length block = 9%nat) (map framed chunks)
    /\ firstn (length payload) (concat (map (firstn 8) (map framed chunks)))
       = payload.
Proof.
  intros G L P Ev.
  destruct (chunks_of_payload payload chunks G) as (C & W & _).
  destruct (timed_session_successes payload chunks schedule G L P Ev)
    as (out & E & O).
  exists out. split; [exact E|]. split; [|split].
  - rewrite <- written_protocol, O.
    rewrite written_app, written_sends. cbn [closing written flat_map].
    rewrite app_nil_r, written_stream. apply base64_decode_encode.
  - apply Forall_forall. intros block I. apply in_map_iff in I.
    destruct I as (c & <- & _). apply framed_length.
  - rewrite framed_chunks by apply (chunks_short payload chunks G).
    rewrite <- C. apply padded_chunks_prefix, W.
Qed.

Lemma stream_round_trip_witness :
  let payload := [x01; x02; x03; x04; x05; x06; x07; x08; x09; x0a] in
  let schedule :=
    Timers.burst ++ [Timers.Line (lit "k")]
      ++ Timers.burst ++ [Timers.Line (lit "k")] in
  exists out,
    Timers.session payload schedule = Some (Timers.Gone 0 out)
    /\ base64_decode (String.string_of_list_ascii (written out))
       = Some [x01; x02; x03; x04; x05; x06; x07; x08; xaa;
               x09; x0a; x00; x00; x00; x00; x00; x00; x80].
Proof.
  intros payload schedule.
  destruct (stream_round_trip payload
              [[x01; x02; x03; x04; x05; x06; x07; x08]; [x09; x0a]] schedule)
    as (out & E & D & _).
  - reflexivity.
  - simpl. lia.
  - reflexivity.
  - reflexivity.
  - exists out. split; [exact E | exact D].
Defined.

(** X19: white space around a line never matters to the listener on the
    parser: a line with white space added at either end is handled exactly
    as the line itself, be it an acknowledgement or not. *)
Theorem on_data_around (chunks : list Buffer) (pre data post : jsstring)
        (s : index_state) :
  blank pre -> blank post ->
  trim (pre ++ data ++ post) = trim data
  /\ on_data chunks (pre ++ data ++ post) s = on_data chunks data s.
Proof.
  intros Bpre Bpost. pose proof (trim_around pre data post Bpre Bpost) as E.
  split; [exact E|]. unfold on_data. rewrite E. reflexivity.
Qed.

Lemma on_data_around_witness :
  let chunks := [[x01; x02; x03; x04; x05; x06; x07; x08]; [x09; x0a]] in
  let s := {| idx := 0; max := 1 |} in
  on_data chunks ([9; 32]%N ++ lit "k" ++ [13; 10]%N) s = on_data chunks (lit "k") s.
Proof.
  intros chunks s.
  apply (on_data_around chunks [9; 32]%N (lit "k") [13; 10]%N s).
  - repeat constructor.
  - repeat constructor.
Defined.

(* ================================================================== *)
(** * The timers and the bursts *)

(** X20: under every schedule in which each acknowledgement is handled when
    no callback waits any more, the session with its timers and its global
    [base64] and the session whose bursts are written in one go come to the
    same end with the same index and the same actions, the ['Response: ']
    lines taken out and the characters that still wait counted in. *)
Theorem timed_session_agrees (payload : Buffer) (schedule : list Timers.tick) :
  Timers.stop_and_wait payload schedule = true ->
  agrees (Timers.session payload schedule)
         (session_lines payload (Timers.lines_of schedule))
  /\ agrees (Timers.session payload schedule)
            (session payload (events_of (Timers.lines_of schedule))).
Proof.
  intros P. split;
    [apply session_keeps_pace | apply session_keeps_pace_events]; exact P.
Qed.

Lemma timed_session_agrees_witness :
  let payload := [x01; x02; x03; x04; x05; x06; x07; x08; x09; x0a] in
  let schedule :=
    Timers.burst ++ Timers.Line (lit "hello") :: Timers.Line (lit "f")
      :: repeat (Timers.Fire 0) 3 in
  agrees (Timers.session payload schedule)
         (session payload [CHUNK_FAILURE]).
Proof.
  intros payload schedule.
  destruct (timed_session_agrees payload schedule) as [_ A];
    [reflexivity | exact A].
Defined.

(** X21: the handlers write nothing, writing is left to the callbacks: as
    long as no callback runs, whatever lines arrive and however many,
    nothing at all is written to the connection, not even of chunk 0, and a
    session that ends in that time ends with every character unwritten. *)
Theorem handlers_never_write (payload : Buffer) (lines : list jsstring)
        (o : Timers.ending unit) :
  Timers.session payload (map Timers.Line lines) = Some o ->
  written (Timers.trace o) = [].
Proof.
  unfold Timers.session.
  destruct (inGroupsOf payload 8) as [chunks|]; [|discriminate].
  intros E. injection E as <-.
  apply timed_bind_silent;
    [intros m'; apply (timed_emit_silent chunks (START (array_get chunks 0)) m')
    | apply timed_lines_silent].
Qed.

Lemma handlers_never_write_witness :
  exists out,
    Timers.session [x2a] (map Timers.Line [lit "k"]) = Some (Timers.Gone 0 out)
    /\ written out = [].
Proof.
  eexists. split; [reflexivity|].
  apply (handlers_never_write [x2a] [lit "k"] (Timers.Gone 0 _)).
  reflexivity.
Defined.
